(** * pytket-stim: the Stim backend of pytket

    A shallow embedding of [pytket/extensions/stim/backends/stim_backend.py]:
    the gate vocabulary [_gate], the Clifford angle decomposer
    ([_int_double], [_tk1_to_cliff]), the circuit translator and result
    assembler ([_process_one_circuit]) and the submission session
    ([StimBackend.process_circuits], [StimBackend.circuit_status]).

    Python floats are modelled as exact rationals ([Q]); Python exceptions
    as an error sum whose state effects made before the raise persist. *)

From Stdlib Require Import ZArith QArith Qround Qabs Reals Psatz List String.
From Stdlib Require Import Qreals.
From stdpp Require Import base option list strings gmap.

Local Open Scope Z_scope.

(** ** Gate tags and exceptions *)

(** The pytket gate-type tags.  The first fifteen are the keys of [_gate];
    the others are a sample of the tags the map does not know, among them
    the wire-less [Phase], the [Barrier] and the classically conditioned
    operation, which carries the operation it conditions. *)
Module OpType.
Inductive t :=
  | noop | X | Y | Z | H | S | SX | SXdg | CX | CY | CZ | ISWAPMax | SWAP
  | Measure | Reset
  | Sdg | T | Tdg | V | Vdg | Rx | Ry | Rz | TK1 | CCX | Barrier | Phase
  | Conditional (inner : t).

#[global] Instance eq_dec : EqDecision t.
Proof. solve_decision. Defined.
End OpType.

(** A submission handle: [ResultHandle(str(uuid4()))]. *)
Definition ResultHandle := string.

(** The Python exceptions the module can raise, by class; [ValueError]
    carries its message, which is what tells its raise sites apart. *)
Inductive exn :=
  | ValueError (msg : string)
  | KeyError (key : OpType.t)
  | AssertionError
  | IndexError
  | TypeError
  | CircuitNotValidError (index : nat)
  | CircuitNotRunError (handle : ResultHandle)
  | ExecutorError (msg : string).

Inductive result (A : Type) :=
  | Ok (a : A)
  | Raise (e : exn).
Arguments Ok {A} a.
Arguments Raise {A} e.

Definition NonCliffordAngle : exn := ValueError "Non-Clifford angle encountered".
Definition MeasurementOverwritten : exn := ValueError "Measurement overwritten".
Definition ShotCountMismatch : exn :=
  ValueError "The length of n_shots and circuits must match".
(** What [list.index] raises when the element is absent. *)
Definition NotInList : exn := ValueError "x not in list".

Module Pure.
Definition bind {A B} (r : result A) (k : A -> result B) : result B :=
  match r with
  | Ok a => k a
  | Raise e => Raise e
  end.
End Pure.

Declare Scope result_scope.
Delimit Scope result_scope with result.
Notation "x <-? r ; k" := (Pure.bind r (fun x => k))
  (at level 100, r at next level, right associativity) : result_scope.

(** ** Clifford angle decomposer *)

Module Decomposer.
Local Open Scope Q_scope.

(** [np.round]: to the nearest integer, ties to the even one. *)
Definition np_round (y : Q) : Z :=
  let f := Qfloor y in
  let d := y - inject_Z f in
  match Qcompare d (1 # 2) with
  | Lt => f
  | Gt => (f + 1)%Z
  | Eq => if Z.even f then f else (f + 1)%Z
  end.

Definition rtol : Q := 1 # 100000.
Definition atol : Q := 1 # 100000000.

(** [np.isclose(a, b)] with numpy's default tolerances:
    [abs(a - b) <= atol + rtol * abs(b)]. *)
Definition np_isclose (a b : Q) : bool :=
  Qle_bool (Qabs (a - b)) (atol + rtol * Qabs b).

Definition _int_double (x : Q) : result Z :=
  let y := 2 * x in
  let n := np_round y in
  if np_isclose y (inject_Z n) then Ok (n mod 8)%Z
  else Raise NonCliffordAngle.
End Decomposer.

(** ** Circuits *)

(** pytket unit identifiers: a register name and an index, of qubit or of
    bit type.  [Circuit(n)] and integer operands use the default registers
    [q] and [c]. *)
Inductive UnitID :=
  | Qubit (reg : string) (index : nat)
  | Bit (reg : string) (index : nat).

#[global] Instance UnitID_eq_dec : EqDecision UnitID.
Proof. solve_decision. Defined.

Definition is_Qubit (u : UnitID) : bool :=
  match u with Qubit _ _ => true | Bit _ _ => false end.

Record Command := mkCommand { op : OpType.t; args : list UnitID }.

Record Circuit := mkCircuit {
  qubits : list UnitID;
  bits : list UnitID;
  get_commands : list Command;
  phase : Q  (* global phase, in half-turns *)
}.

Definition q_ (i : nat) : UnitID := Qubit "q" i.
Definition c_ (i : nat) : UnitID := Bit "c" i.

(** [Circuit(n)]: [n] default-register qubits, no bits, no gates. *)
Definition Circuit_new (n : nat) : Circuit :=
  mkCircuit (map q_ (seq 0 n)) [] [] 0.

Definition add_gate (circ : Circuit) (t : OpType.t) (operands : list UnitID)
  : Circuit :=
  mkCircuit (qubits circ) (bits circ)
            (get_commands circ ++ [mkCommand t operands]) (phase circ).

Definition Circuit_S (circ : Circuit) (i : nat) : Circuit :=
  add_gate circ OpType.S [q_ i].
Definition Circuit_H (circ : Circuit) (i : nat) : Circuit :=
  add_gate circ OpType.H [q_ i].

Definition add_phase (circ : Circuit) (p : Q) : Circuit :=
  mkCircuit (qubits circ) (bits circ) (get_commands circ) (phase circ + p).

(** [for _ in range(n): body] on a threaded value. *)
Definition for_range {A} (n : Z) (body : A -> A) (init : A) : A :=
  Nat.iter (Z.to_nat n) body init.

Module Rebase.
Import Decomposer.
Local Open Scope result_scope.

Definition _tk1_to_cliff (a b c : Q) : result Circuit :=
  n_a <-? _int_double a;
  n_b <-? _int_double b;
  n_c <-? _int_double c;
  let circ := Circuit_new 1 in
  let circ := for_range n_c (fun circ => Circuit_S circ 0) circ in
  let circ :=
    for_range n_b
      (fun circ => Circuit_H (Circuit_S (Circuit_H circ 0) 0) 0) circ in
  let circ := for_range n_a (fun circ => Circuit_S circ 0) circ in
  Ok (add_phase circ (- (1 # 4) * inject_Z (n_a + n_b + n_c))%Q).
End Rebase.

(** ** Gate vocabulary *)

(** A Python [dict] as an association list in insertion order. *)
Definition dict (K V : Type) := list (K * V).

Definition keys {K V} (d : dict K V) : list K := map fst d.

Fixpoint dict_get {V} (d : dict OpType.t V) (k : OpType.t) : result V :=
  match d with
  | [] => Raise (KeyError k)
  | (k', v) :: d' => if decide (k = k') then Ok v else dict_get d' k
  end.

Definition _gate : dict OpType.t string :=
  [ (OpType.noop, "I");
    (OpType.X, "X");
    (OpType.Y, "Y");
    (OpType.Z, "Z");
    (OpType.H, "H");
    (OpType.S, "S");
    (OpType.SX, "SQRT_X");
    (OpType.SXdg, "SQRT_X_DAG");
    (OpType.CX, "CX");
    (OpType.CY, "CY");
    (OpType.CZ, "CZ");
    (OpType.ISWAPMax, "ISWAP");
    (OpType.SWAP, "SWAP");
    (OpType.Measure, "M");
    (OpType.Reset, "R") ]%string.

(** ** Predicates *)

Inductive Predicate :=
  | DefaultRegisterPredicate
  | GateSetPredicate (gate_set : list OpType.t)
  | NoClassicalControlPredicate.

Definition in_default_register (u : UnitID) : bool :=
  match u with
  | Qubit r _ => bool_decide (r = "q"%string)
  | Bit r _ => bool_decide (r = "c"%string)
  end.

(** What pytket's [GateSetPredicate] lets through: the gate types of the
    set and, whatever the set, barriers and [Phase] operations; a
    classically conditioned operation when the operation it conditions is
    let through. *)
Fixpoint permitted (gate_set : list OpType.t) (t : OpType.t) : bool :=
  match t with
  | OpType.Barrier | OpType.Phase => true
  | OpType.Conditional inner => permitted gate_set inner
  | _ => bool_decide (t ∈ gate_set)
  end.

Definition is_Conditional (t : OpType.t) : bool :=
  match t with OpType.Conditional _ => true | _ => false end.

(** [Predicate.verify]. *)
Definition verify (p : Predicate) (circ : Circuit) : bool :=
  match p with
  | DefaultRegisterPredicate =>
      forallb in_default_register (qubits circ ++ bits circ)
  | GateSetPredicate gate_set =>
      forallb (fun cmd => permitted gate_set (op cmd)) (get_commands circ)
  | NoClassicalControlPredicate =>
      forallb (fun cmd => negb (is_Conditional (op cmd))) (get_commands circ)
  end.

Definition required_predicates : list Predicate :=
  [ DefaultRegisterPredicate;
    GateSetPredicate (keys _gate);
    NoClassicalControlPredicate ].

Definition valid_circuit (circ : Circuit) : bool :=
  forallb (fun p => verify p circ) required_predicates.

(** ** Circuit translator and result assembler *)

(** A Stim circuit: its instructions (name, targets), in order. *)
Abbreviation StimCircuit := (list (string * list nat)).

(** [c.append_operation(name, targets)]: Stim fuses the new instruction
    into the last one when that has the same name, appending the targets;
    otherwise the instruction is added at the end. *)
Fixpoint append_operation (c : StimCircuit) (name : string)
         (targets : list nat) : StimCircuit :=
  match c with
  | [] => [(name, targets)]
  | ins :: c' =>
      match c' with
      | [] => if decide (fst ins = name)
              then [(name, snd ins ++ targets)]
              else [ins; (name, targets)]
      | _ :: _ => ins :: append_operation c' name targets
      end
  end.

(** [l.index(x)]: the first position of [x], [ValueError] when absent. *)
Fixpoint list_index (x : UnitID) (l : list UnitID) : result nat :=
  match l with
  | [] => Raise NotInList
  | y :: l' =>
      if decide (x = y) then Ok 0%nat
      else Pure.bind (list_index x l') (fun i => Ok (Datatypes.S i))
  end.

(** A list comprehension whose element expression may raise. *)
Fixpoint comprehension {A B} (f : A -> result B) (l : list A)
  : result (list B) :=
  match l with
  | [] => Ok []
  | x :: l' =>
      Pure.bind (f x) (fun y =>
      Pure.bind (comprehension f l') (fun ys => Ok (y :: ys)))
  end.

(** A [for] loop threading a value, left by the first exception. *)
Fixpoint for_each {A St} (body : St -> A -> result St) (l : list A) (st : St)
  : result St :=
  match l with
  | [] => Ok st
  | x :: l' => Pure.bind (body st x) (for_each body l')
  end.

(** [batch[k, i]] on a shots-by-measurements boolean matrix. *)
Definition batch_get (batch : list (list bool)) (k i : nat) : result bool :=
  match batch !! k with
  | Some row => match row !! i with
                | Some v => Ok v
                | None => Raise IndexError
                end
  | None => Raise IndexError
  end.

(** [range(n)] as the list of its values. *)
Definition range (n : Z) : list nat := seq 0 (Z.to_nat n).

Module Translator.
Local Open Scope result_scope.

(** One iteration of the loop over [circ.get_commands()] (lines 106-118),
    on the pair of the Stim circuit [c] and the ledger [readout_bits]. *)
Definition loop_body (qubits : list UnitID)
           (st : StimCircuit * list UnitID) (cmd : Command)
  : result (StimCircuit * list UnitID) :=
  let '(c, readout_bits) := st in
  let optype := op cmd in
  let args := args cmd in
  st' <-? (if decide (optype = OpType.Measure) then
             match args with
             | [qb; cb] =>
                 if is_Qubit qb then
                   i <-? list_index qb qubits;
                   Ok (append_operation c "M" [i], readout_bits ++ [cb])
                 else Raise AssertionError
             | [] | [_] => Raise (ValueError "not enough values to unpack")
             | _ => Raise (ValueError "too many values to unpack")
             end
           else
             qbs <-? comprehension (fun arg => list_index arg qubits) args;
             name <-? dict_get _gate optype;
             Ok (append_operation c name qbs, readout_bits));
  let readout_bits := snd st' in
  if decide (length (remove_dups readout_bits) ≠ length readout_bits)
  then Raise MeasurementOverwritten
  else Ok st'.

Definition translate (circ : Circuit)
  : result (StimCircuit * list UnitID) :=
  for_each (loop_body (qubits circ)) (get_commands circ) ([], []).

(** The nested comprehension of lines 123-127: for every trial [k] and
    every declared bit [cb], [batch[k, readout_bits.index(cb)]]. *)
Definition assemble (batch : list (list bool)) (readout_bits bits : list UnitID)
           (n_shots : Z) : result (list (list bool)) :=
  comprehension
    (fun k =>
       comprehension
         (fun cb => i <-? list_index cb readout_bits; batch_get batch k i)
         bits)
    (range n_shots).
End Translator.

(** ** The backend session *)

(** [BackendResult(shots=...)], with the outcome array kept as the readout
    rows it was built from. *)
Record BackendResult := mkBackendResult { shots : list (list bool) }.

(** [OutcomeArray.from_readouts(rows)]: the rows must form a
    two-dimensional array, which an empty list of rows does not. *)
Definition from_readouts (rows : list (list bool))
  : result (list (list bool)) :=
  match rows with
  | [] => Raise (ValueError
            "OutcomeArray must be a two dimensional array of dtype uint8.")
  | _ :: _ => Ok rows
  end.

Inductive StatusEnum :=
  | COMPLETED | QUEUED | SUBMITTED | RUNNING | RETRYING | CANCELLING
  | CANCELLED | ERROR.

Record CircuitStatus := mkCircuitStatus { status : StatusEnum }.

(** What lies outside the module: the random [uuid4] and the Stim
    compile-and-sample call, each a function of how many calls came
    before it. *)
Class External := {
  uuid4 : nat -> string;
  stim_sample : nat -> StimCircuit -> option Z -> result (list (list bool))
}.

(** The mutable world the backend runs in: [self._cache], the number of
    uuids drawn, and the calls made to the Stim executor, oldest first. *)
Record World := mkWorld {
  _cache : gmap ResultHandle (gmap string BackendResult);
  uuids_drawn : nat;
  executor_calls : list (StimCircuit * option Z)
}.

Definition M (A : Type) : Type := World -> result A * World.

Module Eff.
Definition ret {A} (a : A) : M A := fun w => (Ok a, w).
Definition raise {A} (e : exn) : M A := fun w => (Raise e, w).
Definition bind {A B} (m : M A) (k : A -> M B) : M B :=
  fun w => match m w with
           | (Ok a, w') => k a w'
           | (Raise e, w') => (Raise e, w')
           end.
Definition lift {A} (r : result A) : M A := fun w => (r, w).
End Eff.

Declare Scope eff_scope.
Delimit Scope eff_scope with eff.
Notation "x <- m ;; k" := (Eff.bind m (fun x => k))
  (at level 100, m at next level, right associativity) : eff_scope.
Notation "m ;;; k" := (Eff.bind m (fun _ => k))
  (at level 100, right associativity) : eff_scope.

(** The [n_shots] argument: [None], an [int], or a sequence of [int]. *)
Inductive ShotsArg :=
  | ShotsNone
  | ShotsInt (n : Z)
  | ShotsSeq (l : list Z).

Section Backend.
Context `{External}.
Local Open Scope eff_scope.

Definition draw_uuid4 : M string :=
  fun w => (Ok (uuid4 (uuids_drawn w)),
            mkWorld (_cache w) (Datatypes.S (uuids_drawn w)) (executor_calls w)).

(** [c.compile_sampler().sample(n_shots)]. *)
Definition compile_and_sample (c : StimCircuit) (n_shots : option Z)
  : M (list (list bool)) :=
  fun w => (stim_sample (length (executor_calls w)) c n_shots,
            mkWorld (_cache w) (uuids_drawn w)
                    (executor_calls w ++ [(c, n_shots)])).

Definition cache_store (handle : ResultHandle) (r : BackendResult) : M unit :=
  fun w => (Ok tt,
            mkWorld (<[handle := {["result"%string := r]}]> (_cache w))
                    (uuids_drawn w) (executor_calls w)).

Definition _process_one_circuit (circ : Circuit) (n_shots : option Z)
  : M BackendResult :=
  let qubits := qubits circ in
  let bits := bits circ in
  translated <- Eff.lift (Translator.translate circ);;
  let '(c, readout_bits) := translated in
  batch <- compile_and_sample c n_shots;;
  match n_shots with
  | None => Eff.raise TypeError  (* range(None) *)
  | Some n =>
      rows <- Eff.lift (Translator.assemble batch readout_bits bits n);;
      outcomes <- Eff.lift (from_readouts rows);;
      Eff.ret (mkBackendResult outcomes)
  end.

(** [Backend._check_all_circuits]: the first circuit that fails a
    required predicate is refused. *)
Fixpoint _check_all_circuits_from (i : nat) (circuits : list Circuit)
  : M unit :=
  match circuits with
  | [] => Eff.ret tt
  | circ :: rest =>
      if valid_circuit circ then _check_all_circuits_from (Datatypes.S i) rest
      else Eff.raise (CircuitNotValidError i)
  end.

Definition _check_all_circuits (circuits : list Circuit) : M unit :=
  _check_all_circuits_from 0 circuits.

(** The submission loop (lines 188-194), threading [handle_list]. *)
Fixpoint submit_loop (jobs : list (Circuit * option Z))
         (handle_list : list ResultHandle) : M (list ResultHandle) :=
  match jobs with
  | [] => Eff.ret handle_list
  | (circuit, n_shots_circ) :: rest =>
      handle <- draw_uuid4;;
      r <- _process_one_circuit circuit n_shots_circ;;
      cache_store handle r;;;
      submit_loop rest (handle_list ++ [handle])
  end.

Definition process_circuits (circuits : list Circuit) (n_shots : ShotsArg)
           (valid_check : bool) : M (list ResultHandle) :=
  n_shots_list <-
    match n_shots with
    | ShotsSeq l =>
        if decide (length l ≠ length circuits)
        then Eff.raise ShotCountMismatch
        else Eff.ret (map Some l)
    | ShotsInt n => Eff.ret (replicate (length circuits) (Some n))
    | ShotsNone => Eff.ret (replicate (length circuits) None)
    end;;
  (if valid_check then _check_all_circuits circuits else Eff.ret tt);;;
  submit_loop (zip circuits n_shots_list) [].

Definition circuit_status (handle : ResultHandle) : M CircuitStatus :=
  fun w =>
    if decide (is_Some (_cache w !! handle))
    then (Ok (mkCircuitStatus COMPLETED), w)
    else (Raise (CircuitNotRunError handle), w).
End Backend.

(** ** Unitary semantics of one-qubit circuits *)

(** The matrices pytket documents for its gates, over the complex numbers
    as pairs of reals.  Angles are in half-turns: [Rz(α)] is
    [diag(e^{-iπα/2}, e^{iπα/2})], [Rx(α)] is [e^{-iπαX/2}],
    [TK1(α, β, γ)] is [Rz(α) Rx(β) Rz(γ)], and a circuit of phase [p] carries
    the scalar [e^{iπp}]. *)
Module Unitary.
Local Open Scope R_scope.

Definition C : Type := R * R.

Definition Cadd (z w : C) : C := (fst z + fst w, snd z + snd w).
Definition Cmul (z w : C) : C :=
  (fst z * fst w - snd z * snd w, fst z * snd w + snd z * fst w).
Definition RtoC (x : R) : C := (x, 0).
Definition Ci : C := (0, 1).
Definition cis (t : R) : C := (cos t, sin t).

Record M2 := mkM2 { m00 : C; m01 : C; m10 : C; m11 : C }.

Definition Mmul (A B : M2) : M2 :=
  mkM2 (Cadd (Cmul (m00 A) (m00 B)) (Cmul (m01 A) (m10 B)))
       (Cadd (Cmul (m00 A) (m01 B)) (Cmul (m01 A) (m11 B)))
       (Cadd (Cmul (m10 A) (m00 B)) (Cmul (m11 A) (m10 B)))
       (Cadd (Cmul (m10 A) (m01 B)) (Cmul (m11 A) (m11 B))).

Definition Mscale (z : C) (A : M2) : M2 :=
  mkM2 (Cmul z (m00 A)) (Cmul z (m01 A)) (Cmul z (m10 A)) (Cmul z (m11 A)).

Definition I2 : M2 := mkM2 (RtoC 1) (RtoC 0) (RtoC 0) (RtoC 1).

Definition S_gate : M2 := mkM2 (RtoC 1) (RtoC 0) (RtoC 0) Ci.

Definition H_gate : M2 :=
  mkM2 (RtoC (/ sqrt 2)) (RtoC (/ sqrt 2))
       (RtoC (/ sqrt 2)) (RtoC (- / sqrt 2)).

Definition Rz_gate (alpha : R) : M2 :=
  mkM2 (cis (- (PI * alpha / 2))) (RtoC 0)
       (RtoC 0) (cis (PI * alpha / 2)).

Definition Rx_gate (alpha : R) : M2 :=
  mkM2 (cos (PI * alpha / 2), 0) (0, - sin (PI * alpha / 2))
       (0, - sin (PI * alpha / 2)) (cos (PI * alpha / 2), 0).

Definition TK1_gate (a b c : R) : M2 :=
  Mmul (Rz_gate a) (Mmul (Rx_gate b) (Rz_gate c)).

(** The generators the rebase emits. *)
Definition gate_unitary (t : OpType.t) : option M2 :=
  match t with
  | OpType.H => Some H_gate
  | OpType.S => Some S_gate
  | _ => None
  end.

(** Gates act in command order: each later gate multiplies on the left. *)
Fixpoint commands_unitary (cmds : list Command) (acc : M2) : option M2 :=
  match cmds with
  | [] => Some acc
  | cmd :: rest =>
      if decide (args cmd = [q_ 0]) then
        match gate_unitary (op cmd) with
        | Some G => commands_unitary rest (Mmul G acc)
        | None => None
        end
      else None
  end.

(** [circ.get_unitary()] for a circuit on the single qubit [q[0]]. *)
Definition get_unitary (circ : Circuit) : option M2 :=
  if decide (qubits circ = [q_ 0]) then
    match commands_unitary (get_commands circ) I2 with
    | Some U => Some (Mscale (cis (PI * Q2R (phase circ))) U)
    | None => None
    end
  else None.

(** [k] quarter-turns about Z (resp. X) with the phase the generators
    carry. *)
Definition Pz (k : R) : M2 := Mscale (cis (k * (PI / 4))) (Rz_gate (k / 2)).
Definition Px (k : R) : M2 := Mscale (cis (k * (PI / 4))) (Rx_gate (k / 2)).

(** Equality up to a global phase. *)
Definition phase_equiv (A B : M2) : Prop :=
  exists t : R, A = Mscale (cis t) B.
End Unitary.

(** ** Specification-side vocabulary *)

Module Spec.
Import Decomposer.
Local Open Scope Q_scope.

(** [x] is within the closeness tolerance of a multiple of 0.5: [2x] is
    within [atol + rtol * |n|] of its nearest integer [n]. *)
Definition within_tolerance (x : Q) : Prop :=
  let y := 2 * x in
  let n := inject_Z (np_round y) in
  Qabs (y - n) <= atol + rtol * Qabs n.

(** The multiple of 0.5 nearest to [x]. *)
Definition nearest_half (x : Q) : Q := inject_Z (np_round (2 * x)) / 2.

(** [x] is exactly a multiple of 0.5. *)
Definition half_integer (x : Q) : Prop := exists n : Z, 2 * x == inject_Z n.

(** The one-qubit command [t] on [q[0]]. *)
Definition on_q0 (t : OpType.t) : Command := mkCommand t [q_ 0].

Definition phase_gates (n : Z) : list Command :=
  replicate (Z.to_nat n) (on_q0 OpType.S).

Definition conjugated_phase_gates (n : Z) : list Command :=
  concat (replicate (Z.to_nat n)
                    [on_q0 OpType.H; on_q0 OpType.S; on_q0 OpType.H]).

Definition append_commands (circ : Circuit) (block : list Command) : Circuit :=
  mkCircuit (qubits circ) (bits circ) (get_commands circ ++ block)
            (phase circ).

(** The bits targeted by the measurements of a command list, in order. *)
Definition measured_bit (cmd : Command) : list UnitID :=
  if decide (op cmd = OpType.Measure) then
    match args cmd with
    | [_; cb] => [cb]
    | _ => []
    end
  else [].

Definition measured_bits (cmds : list Command) : list UnitID :=
  concat (map measured_bit cmds).

(** What the host circuit model guarantees of a command of a circuit on
    [qubits] once the gate-set predicate holds: a measurement has one
    qubit of the circuit and one bit, any other operation has a gate of
    the vocabulary and operands among the circuit's qubits. *)
Definition well_formed (qubits : list UnitID) (cmd : Command) : Prop :=
  if decide (op cmd = OpType.Measure) then
    exists qb cb, args cmd = [qb; cb] /\ is_Qubit qb = true /\ qb ∈ qubits
  else
    op cmd ∈ keys _gate /\ Forall (fun arg => arg ∈ qubits) (args cmd).

(** [i] is the one position of [cb] in the ledger. *)
Definition ledger_position (ledger : list UnitID) (cb : UnitID) (i : nat)
  : Prop :=
  ledger !! i = Some cb /\ forall i', ledger !! i' = Some cb -> i' = i.

(** The entry of a boolean matrix at row [k], column [j]. *)
Definition entry (m : list (list bool)) (k j : nat) : option bool :=
  m !! k ≫= (fun row => row !! j).

(** A shots-by-measurements matrix, as the executor's contract has it. *)
Definition well_shaped (batch : list (list bool)) (n_shots : Z) (width : nat)
  : Prop :=
  length batch = Z.to_nat n_shots /\
  Forall (fun row => length row = width) batch.

(** An executor for examples: every measurement reads [false], whatever
    the shot count; handles are numbered.  A Stim circuit measures once
    per target of its [M] instructions. *)
Definition count_measurements (c : StimCircuit) : nat :=
  length (concat (map snd (filter (fun ins => fst ins = "M"%string) c))).

Definition ground_state_sample (c : StimCircuit) (n_shots : option Z)
  : result (list (list bool)) :=
  match n_shots with
  | Some n => Ok (replicate (Z.to_nat n)
                            (replicate (count_measurements c) false))
  | None => Raise TypeError
  end.

Definition numbered_handle (n : nat) : string :=
  String.append "handle-" (String (Ascii.ascii_of_nat (48 + n)) EmptyString).

Definition example_external : External :=
  {| uuid4 := numbered_handle;
     stim_sample := fun _ => ground_state_sample |}.

(** An executor for examples that answers every call with [batch]. *)
Definition replay_external (batch : list (list bool)) : External :=
  {| uuid4 := numbered_handle;
     stim_sample := fun _ _ _ => Ok batch |}.

Definition empty_world : World := mkWorld ∅ 0 [].

(** How many measurements of [cmds] target the bit [cb]. *)
Definition times_measured (cmds : list Command) (cb : UnitID) : nat :=
  count_occ UnitID_eq_dec (measured_bits cmds) cb.

(** Example circuits. *)

(** Two qubits measured into the same bit; the unsupported [T] after the
    second measurement is never reached. *)
Definition remeasured_circuit : Circuit :=
  mkCircuit [q_ 0; q_ 1] [c_ 0]
    [ mkCommand OpType.H [q_ 0];
      mkCommand OpType.Measure [q_ 0; c_ 0];
      mkCommand OpType.Measure [q_ 1; c_ 0];
      mkCommand OpType.T [q_ 0] ] 0.

(** Declared bits [c[0], c[1]], measured in the order [c[1]], [c[0]]. *)
Definition swapped_circuit : Circuit :=
  mkCircuit [q_ 0; q_ 1] [c_ 0; c_ 1]
    [ mkCommand OpType.H [q_ 0];
      mkCommand OpType.Measure [q_ 0; c_ 1];
      mkCommand OpType.CX [q_ 0; q_ 1];
      mkCommand OpType.Measure [q_ 1; c_ 0] ] 0.

(** A declared bit [c[1]] that no measurement targets. *)
Definition unmeasured_circuit : Circuit :=
  mkCircuit [q_ 0] [c_ 0; c_ 1]
    [ mkCommand OpType.H [q_ 0];
      mkCommand OpType.Measure [q_ 0; c_ 0] ] 0.

(** A [Phase] operation, which has no operand, between a Hadamard and a
    measurement. *)
Definition phase_circuit : Circuit :=
  mkCircuit [q_ 0] [c_ 0]
    [ mkCommand OpType.H [q_ 0];
      mkCommand OpType.Phase [];
      mkCommand OpType.Measure [q_ 0; c_ 0] ] 0.

(** One qubit measured into one declared bit. *)
Definition measure_circuit : Circuit :=
  mkCircuit [q_ 0] [c_ 0] [mkCommand OpType.Measure [q_ 0; c_ 0]] 0.

(** The handle [h] keys a Result Record [r] in the cache of [w]. *)
Definition stored (w : World) (h : ResultHandle) (r : BackendResult) : Prop :=
  _cache w !! h = Some {["result"%string := r]}.
End Spec.


(** ** The rest of the backend *)

(** The target gate set of [StimBackend.rebase_pass] (line 147):
    [RebaseCustom({OpType.CX, OpType.H, OpType.S}, Circuit(), _tk1_to_cliff)]. *)
Definition rebase_gate_set : list OpType.t := [OpType.CX; OpType.H; OpType.S].

(** The gate set of [_backend_info] (line 74): [set(_gate.keys())]. *)
Definition backend_info_gate_set : list OpType.t := keys _gate.

Module Props.
Import Translator Spec.

(** The operands a command's Stim instruction targets: the qubit of a
    measurement, every operand of another operation. *)
Definition qubit_operands (cmd : Command) : list UnitID :=
  if decide (op cmd = OpType.Measure) then take 1 (args cmd) else args cmd.

(** [t] is what [qubits.index(arg)] returns: the first position of
    [arg]. *)
Definition resolves (qubits : list UnitID) (arg : UnitID) (t : nat) : Prop :=
  qubits !! t = Some arg /\ forall j, (j < t)%nat -> qubits !! j <> Some arg.

(** The instruction [ins] is the lowering of [cmd]: its name is the
    gate map's, its targets are the resolved qubit operands, in order. *)
Definition lowers (qubits : list UnitID) (cmd : Command)
           (ins : string * list nat) : Prop :=
  dict_get _gate (op cmd) = Ok (fst ins) /\
  Forall2 (resolves qubits) (qubit_operands cmd) (snd ins).

(** A Hadamard or phase gate on [q[0]], the commands of a rebased
    one-qubit fragment. *)
Definition generator_on_q0 (cmd : Command) : Prop :=
  (op cmd = OpType.H \/ op cmd = OpType.S) /\ args cmd = [q_ 0].

(** The Stim circuit after appending the instructions [inss] to [c], one
    [append_operation] each, in order. *)
Definition append_all (c : StimCircuit) (inss : list (string * list nat))
  : StimCircuit :=
  foldl (fun c ins => append_operation c (fst ins) (snd ins)) c inss.

(** All the targets of a Stim circuit, in order. *)
Definition all_targets (c : StimCircuit) : list nat := concat (map snd c).

(** The shot count each circuit of a submission is run with: the list
    [n_shots_list] of lines 176-183. *)
Definition shots_per_circuit (circuits : list Circuit) (n_shots : ShotsArg)
  : list (option Z) :=
  match n_shots with
  | ShotsSeq l => map Some l
  | ShotsInt n => replicate (length circuits) (Some n)
  | ShotsNone => replicate (length circuits) None
  end.

(** The cache after storing the records [entries], oldest first. *)
Definition store_results
           (cache : gmap ResultHandle (gmap string BackendResult))
           (entries : list (ResultHandle * BackendResult))
  : gmap ResultHandle (gmap string BackendResult) :=
  foldl (fun m hr => <[fst hr := {["result"%string := snd hr]}]> m)
        cache entries.

(** [res] is the record of [circ] run for [n_shots] shots as the
    executor's call number [call_index], on the Stim circuit [c]. *)
Definition job_result `{External} (call_index : nat) (circ : Circuit)
           (n_shots : option Z) (c : StimCircuit) (res : BackendResult)
  : Prop :=
  exists (ledger : list UnitID) (batch : list (list bool)) (n : Z),
    n_shots = Some n /\
    translate circ = Ok (c, ledger) /\
    stim_sample call_index c n_shots = Ok batch /\
    assemble batch ledger (bits circ) n = Ok (shots res).

(** The world after drawing one uuid. *)
Definition after_uuid (w : World) : World :=
  mkWorld (_cache w) (Datatypes.S (uuids_drawn w)) (executor_calls w).

(** Example circuits. *)

(** A barrier between a Hadamard and a measurement. *)
Definition barrier_circuit : Circuit :=
  mkCircuit [q_ 0] [c_ 0]
    [ mkCommand OpType.H [q_ 0];
      mkCommand OpType.Barrier [q_ 0];
      mkCommand OpType.Measure [q_ 0; c_ 0] ] 0.

(** Two qubits measured one after the other, into two bits: Stim fuses
    the two measurements into the one instruction [M 0 1]. *)
Definition double_measure_circuit : Circuit :=
  mkCircuit [q_ 0; q_ 1] [c_ 0; c_ 1]
    [ mkCommand OpType.Measure [q_ 0; c_ 0];
      mkCommand OpType.Measure [q_ 1; c_ 1] ] 0.

(** The first measurement of [double_measure_circuit] alone. *)
Definition first_measure_circuit : Circuit :=
  mkCircuit [q_ 0; q_ 1] [c_ 0; c_ 1]
    [ mkCommand OpType.Measure [q_ 0; c_ 0] ] 0.

(** Two qubits measured into one bit, with supported gates only. *)
Definition overwriting_circuit : Circuit :=
  mkCircuit [q_ 0; q_ 1] [c_ 0]
    [ mkCommand OpType.Measure [q_ 0; c_ 0];
      mkCommand OpType.Measure [q_ 1; c_ 0] ] 0.

(** A world whose cache already holds the handle ["earlier"]. *)
Definition used_world : World :=
  mkWorld {["earlier"%string := {["result"%string := mkBackendResult []]}]}
          0 [].
End Props.
(** * Theorems *)

(** ** The angle decomposer *)

Section DecomposerFacts.
Import Decomposer Rebase Spec.
Local Open Scope Q_scope.

(** [np.round] returns a nearest integer. *)
Lemma np_round_nearest (y : Q) : Qabs (y - inject_Z (np_round y)) <= 1 # 2.
Proof.
  pose proof (Qfloor_le y) as Hlo.
  pose proof (Qlt_floor y) as Hhi.
  rewrite inject_Z_plus in Hhi. change (inject_Z 1) with 1 in Hhi.
  unfold np_round.
  destruct (Qcompare (y - inject_Z (Qfloor y)) (1 # 2)) eqn:E;
    [apply Qeq_alt in E; destruct (Z.even (Qfloor y))
    |apply Qlt_alt in E|apply Qgt_alt in E];
    rewrite ?inject_Z_plus; change (inject_Z 1) with 1;
    generalize dependent (inject_Z (Qfloor y)); intros f Hlo Hhi E;
    apply Qabs_Qle_condition; split; lra.
Qed.

Lemma np_isclose_spec (a b : Q) :
  np_isclose a b = true <-> Qabs (a - b) <= atol + rtol * Qabs b.
Proof. unfold np_isclose. apply Qle_bool_iff. Qed.

Lemma int_double_accepts (x : Q) :
  within_tolerance x -> _int_double x = Ok (np_round (2 * x) mod 8)%Z.
Proof.
  intros Hx. unfold _int_double.
  apply np_isclose_spec in Hx. now rewrite Hx.
Qed.

Lemma int_double_rejects (x : Q) :
  ~ within_tolerance x -> _int_double x = Raise NonCliffordAngle.
Proof.
  intros Hx. unfold _int_double.
  destruct (np_isclose _ _) eqn:E; [|reflexivity].
  apply np_isclose_spec in E. contradiction.
Qed.

Lemma int_double_inv (x : Q) (n : Z) :
  _int_double x = Ok n ->
  within_tolerance x /\ n = (np_round (2 * x) mod 8)%Z.
Proof.
  unfold _int_double. destruct (np_isclose _ _) eqn:E; [|discriminate].
  intros [= <-]. split; [now apply np_isclose_spec|reflexivity].
Qed.

Lemma tk1_to_cliff_rejects (a b c : Q) :
  ~ within_tolerance a \/ ~ within_tolerance b \/ ~ within_tolerance c ->
  _tk1_to_cliff a b c = Raise NonCliffordAngle.
Proof.
  intros Hbad. unfold _tk1_to_cliff.
  destruct (_int_double a) as [n_a|e] eqn:Ea; simpl.
  - destruct (_int_double b) as [n_b|e] eqn:Eb; simpl.
    + destruct (_int_double c) as [n_c|e] eqn:Ec; simpl.
      * apply int_double_inv in Ea, Eb, Ec. tauto.
      * unfold _int_double in Ec.
        destruct (np_isclose _ _); congruence.
    + unfold _int_double in Eb. destruct (np_isclose _ _); congruence.
  - unfold _int_double in Ea. destruct (np_isclose _ _); congruence.
Qed.

(** C3: [_int_double x] returns [n mod 8], an integer of [0..7], when
    [2x] is within the closeness tolerance of its nearest integer [n],
    and raises the non-Clifford error otherwise; a triple with a
    component outside the tolerance is refused with the same error. *)
Theorem int_double_correct (x : Q) :
  let n := np_round (2 * x) in
  Qabs (2 * x - inject_Z n) <= 1 # 2 /\
  (within_tolerance x ->
     _int_double x = Ok (n mod 8)%Z /\ (0 <= n mod 8 < 8)%Z) /\
  (~ within_tolerance x ->
     _int_double x = Raise NonCliffordAngle /\
     forall b c : Q,
       _tk1_to_cliff x b c = Raise NonCliffordAngle /\
       _tk1_to_cliff b x c = Raise NonCliffordAngle /\
       _tk1_to_cliff b c x = Raise NonCliffordAngle).
Proof.
  intros n. split; [apply np_round_nearest|]. split.
  - intros Hx. split; [now apply int_double_accepts|].
    apply Z.mod_pos_bound. lia.
  - intros Hx. split; [now apply int_double_rejects|].
    intros b c. repeat split; apply tk1_to_cliff_rejects; tauto.
Qed.

Lemma int_double_correct_witness :
  (_int_double (5 # 2) = Ok 5%Z /\ (0 <= 5 < 8)%Z) /\
  _int_double (1 # 4) = Raise NonCliffordAngle /\
  _tk1_to_cliff (1 # 2) (1 # 4) 1 = Raise NonCliffordAngle.
Proof.
  split.
  - apply (int_double_correct (5 # 2)). vm_compute. discriminate.
  - assert (Hbad : ~ within_tolerance (1 # 4)).
    { vm_compute. intros Hle. apply Hle. reflexivity. }
    split.
    + apply (int_double_correct (1 # 4)), Hbad.
    + apply (int_double_correct (1 # 4)); exact Hbad.
Defined.

Lemma concat_replicate_comm {A} (k : nat) (block : list A) :
  concat (replicate k block) ++ block = block ++ concat (replicate k block).
Proof.
  induction k as [|k IH]; simpl.
  - now rewrite app_nil_r.
  - now rewrite <- app_assoc, IH.
Qed.

Lemma for_range_ext {A} (n : Z) (f g : A -> A) (x : A) :
  (forall y, f y = g y) -> for_range n f x = for_range n g x.
Proof.
  intros Hfg. unfold for_range.
  induction (Z.to_nat n) as [|k IH]; simpl; [reflexivity|].
  now rewrite IH, Hfg.
Qed.

Lemma for_range_append (n : Z) (block : list Command) (circ : Circuit) :
  for_range n (fun circ => append_commands circ block) circ =
  append_commands circ (concat (replicate (Z.to_nat n) block)).
Proof.
  unfold for_range. induction (Z.to_nat n) as [|k IH]; simpl.
  - unfold append_commands. rewrite app_nil_r. now destruct circ.
  - rewrite IH. unfold append_commands. simpl. f_equal.
    rewrite <- !app_assoc. f_equal. apply concat_replicate_comm.
Qed.

Lemma for_range_S (n : Z) (circ : Circuit) :
  for_range n (fun circ => Circuit_S circ 0) circ =
  append_commands circ (phase_gates n).
Proof.
  rewrite (for_range_ext n _ (fun circ => append_commands circ [on_q0 OpType.S]))
    by reflexivity.
  rewrite for_range_append. unfold phase_gates. f_equal.
  induction (Z.to_nat n) as [|k IH]; simpl; [reflexivity|now rewrite IH].
Qed.

Lemma for_range_HSH (n : Z) (circ : Circuit) :
  for_range n (fun circ => Circuit_H (Circuit_S (Circuit_H circ 0) 0) 0) circ =
  append_commands circ (conjugated_phase_gates n).
Proof.
  unfold conjugated_phase_gates. rewrite <- for_range_append.
  apply for_range_ext. intros circ'.
  unfold Circuit_H, Circuit_S, add_gate, append_commands. simpl.
  now rewrite <- !app_assoc.
Qed.

Lemma Q2R_inject_Z (n : Z) : Q2R (inject_Z n) = IZR n.
Proof. unfold Q2R. simpl. lra. Qed.

(** The circuit [_tk1_to_cliff] builds from accepted residues. *)
Lemma tk1_to_cliff_accepts (a b c : Q) (n_a n_b n_c : Z) :
  _int_double a = Ok n_a -> _int_double b = Ok n_b ->
  _int_double c = Ok n_c ->
  _tk1_to_cliff a b c =
  Ok (mkCircuit [q_ 0] []
        (phase_gates n_c ++ conjugated_phase_gates n_b ++ phase_gates n_a)
        (0 + - (1 # 4) * inject_Z (n_a + n_b + n_c))).
Proof.
  intros Ea Eb Ec. unfold _tk1_to_cliff. rewrite Ea, Eb, Ec. simpl.
  rewrite !for_range_S, for_range_HSH.
  unfold append_commands, add_phase, Circuit_new. simpl.
  now rewrite <- app_assoc.
Qed.

(** C4: for accepted residues the circuit on [q[0]] is [n_c] phase gates,
    then [n_b] copies of Hadamard, phase, Hadamard, then [n_a] phase
    gates, in that order, with global phase [-0.25 * (n_a + n_b + n_c)]
    half-turns, which is [-π/4 * (n_a + n_b + n_c)] radians. *)
Theorem tk1_to_cliff_emits (a b c : Q) (n_a n_b n_c : Z) :
  _int_double a = Ok n_a -> _int_double b = Ok n_b ->
  _int_double c = Ok n_c ->
  exists circ : Circuit,
    _tk1_to_cliff a b c = Ok circ /\
    qubits circ = [q_ 0] /\
    get_commands circ =
      phase_gates n_c ++ conjugated_phase_gates n_b ++ phase_gates n_a /\
    (length (phase_gates n_c) = Z.to_nat n_c /\
     length (conjugated_phase_gates n_b) = (3 * Z.to_nat n_b)%nat /\
     length (phase_gates n_a) = Z.to_nat n_a) /\
    (0 <= n_a < 8 /\ 0 <= n_b < 8 /\ 0 <= n_c < 8)%Z /\
    phase circ == - (1 # 4) * inject_Z (n_a + n_b + n_c) /\
    (PI * Q2R (phase circ) = - (PI / 4) * IZR (n_a + n_b + n_c))%R.
Proof.
  intros Ea Eb Ec. eexists. split; [apply tk1_to_cliff_accepts; eassumption|].
  simpl. split; [reflexivity|]. split; [reflexivity|]. split.
  - unfold phase_gates, conjugated_phase_gates.
    rewrite !length_replicate. repeat split.
    induction (Z.to_nat n_b) as [|k IH]; simpl; [reflexivity|].
    rewrite IH. lia.
  - apply int_double_inv in Ea as [_ ->], Eb as [_ ->], Ec as [_ ->].
    split; [repeat split; apply Z.mod_pos_bound; lia|].
    split; [ring|].
    rewrite (Qeq_eqR _ (- (1 # 4) * inject_Z
       (np_round (2 * a) mod 8 + np_round (2 * b) mod 8 +
        np_round (2 * c) mod 8))) by ring.
    rewrite Q2R_mult, Q2R_inject_Z, Q2R_opp.
    replace (Q2R (1 # 4)) with (/ 4)%R by (unfold Q2R; simpl; lra).
    lra.
Qed.

Lemma tk1_to_cliff_emits_witness :
  exists circ : Circuit,
    _tk1_to_cliff (1 # 2) 1 (3 # 2) = Ok circ /\
    map op (get_commands circ) =
      [OpType.S; OpType.S; OpType.S;
       OpType.H; OpType.S; OpType.H; OpType.H; OpType.S; OpType.H;
       OpType.S] /\
    phase circ == - (3 # 2).
Proof.
  destruct (tk1_to_cliff_emits (1 # 2) 1 (3 # 2) 1 2 3)
    as (circ & Hrun & _ & Hcmds & _ & _ & Hphase & _);
    [reflexivity..|].
  exists circ. split; [exact Hrun|]. split.
  - rewrite Hcmds. reflexivity.
  - rewrite Hphase. reflexivity.
Defined.
End DecomposerFacts.

(** ** Unitary action of the emitted generator sequence *)

Section UnitaryFacts.
Import Unitary Spec.
Local Open Scope R_scope.

Ltac C_eq := unfold Cmul, Cadd, RtoC, Ci; simpl; f_equal; try ring.
Ltac M2_eq :=
  unfold Mmul, Mscale, I2; simpl; f_equal; C_eq.

Lemma cis_plus (x y : R) : cis (x + y) = Cmul (cis x) (cis y).
Proof. unfold cis, Cmul. simpl. rewrite cos_plus, sin_plus. f_equal; ring. Qed.

Lemma cis_0 : cis 0 = RtoC 1.
Proof. unfold cis, RtoC. now rewrite cos_0, sin_0. Qed.

Lemma cis_neg (x : R) : cis (- x) = (cos x, - sin x).
Proof. unfold cis. now rewrite cos_neg, sin_neg. Qed.

Lemma cis_period (x : R) (q : Z) : cis (x + 2 * IZR q * PI) = cis x.
Proof.
  unfold cis. destruct (Z_le_gt_dec 0 q) as [Hq|Hq].
  - rewrite <- (Z2Nat.id q Hq), <- INR_IZR_INZ.
    now rewrite cos_period, sin_period.
  - rewrite <- (cos_period (x + 2 * IZR q * PI) (Z.to_nat (- q))).
    rewrite <- (sin_period (x + 2 * IZR q * PI) (Z.to_nat (- q))).
    rewrite INR_IZR_INZ, Z2Nat.id by lia. rewrite opp_IZR.
    f_equal; f_equal; ring.
Qed.

Lemma Mmul_assoc (A B D : M2) : Mmul A (Mmul B D) = Mmul (Mmul A B) D.
Proof. M2_eq. Qed.

Lemma Mmul_I2_r (A : M2) : Mmul A I2 = A.
Proof. destruct A as [[? ?] [? ?] [? ?] [? ?]]. M2_eq. Qed.

Lemma Mmul_I2_l (A : M2) : Mmul I2 A = A.
Proof. destruct A as [[? ?] [? ?] [? ?] [? ?]]. M2_eq. Qed.

Lemma Mscale_Mmul_l (z : C) (A B : M2) :
  Mmul (Mscale z A) B = Mscale z (Mmul A B).
Proof. M2_eq. Qed.

Lemma Mscale_Mmul_r (z : C) (A B : M2) :
  Mmul A (Mscale z B) = Mscale z (Mmul A B).
Proof. M2_eq. Qed.

Lemma Mscale_Mscale (z w : C) (A : M2) :
  Mscale z (Mscale w A) = Mscale (Cmul z w) A.
Proof. M2_eq. Qed.

Lemma Mscale_1 (A : M2) : Mscale (RtoC 1) A = A.
Proof. destruct A as [[? ?] [? ?] [? ?] [? ?]]. M2_eq. Qed.

Lemma Rz_gate_plus (x y : R) :
  Rz_gate (x + y) = Mmul (Rz_gate x) (Rz_gate y).
Proof.
  unfold Rz_gate.
  replace (PI * (x + y) / 2) with (PI * x / 2 + PI * y / 2) by lra.
  replace (- (PI * x / 2 + PI * y / 2))
    with (- (PI * x / 2) + - (PI * y / 2)) by lra.
  rewrite !cis_plus. M2_eq.
Qed.

Lemma Rx_gate_plus (x y : R) :
  Rx_gate (x + y) = Mmul (Rx_gate x) (Rx_gate y).
Proof.
  unfold Rx_gate.
  replace (PI * (x + y) / 2) with (PI * x / 2 + PI * y / 2) by lra.
  rewrite cos_plus, sin_plus. M2_eq.
Qed.

Lemma Rz_gate_0 : Rz_gate 0 = I2.
Proof.
  unfold Rz_gate. replace (PI * 0 / 2) with 0 by lra.
  rewrite Ropp_0, cis_0. reflexivity.
Qed.

Lemma Rx_gate_0 : Rx_gate 0 = I2.
Proof.
  unfold Rx_gate. replace (PI * 0 / 2) with 0 by lra.
  rewrite cos_0, sin_0, Ropp_0. reflexivity.
Qed.

(** Four half-turns more is the same rotation, phase included. *)
Lemma Rz_gate_period (x : R) (q : Z) : Rz_gate (x + 4 * IZR q) = Rz_gate x.
Proof.
  unfold Rz_gate.
  replace (PI * (x + 4 * IZR q) / 2) with (PI * x / 2 + 2 * IZR q * PI) by lra.
  replace (- (PI * x / 2 + 2 * IZR q * PI))
    with (- (PI * x / 2) + 2 * IZR (- q) * PI) by (rewrite opp_IZR; lra).
  now rewrite !cis_period.
Qed.

Lemma Rx_gate_period (x : R) (q : Z) : Rx_gate (x + 4 * IZR q) = Rx_gate x.
Proof.
  unfold Rx_gate.
  replace (PI * (x + 4 * IZR q) / 2) with (PI * x / 2 + 2 * IZR q * PI) by lra.
  pose proof (cis_period (PI * x / 2) q) as Hp. unfold cis in Hp.
  injection Hp as -> ->. reflexivity.
Qed.

Lemma inv_sqrt2_sqr : / sqrt 2 * / sqrt 2 = / 2.
Proof.
  rewrite <- Rinv_mult, sqrt_sqrt by lra. reflexivity.
Qed.

Lemma cis_PI4 : cis (PI / 4) = (/ sqrt 2, / sqrt 2).
Proof.
  unfold cis. rewrite cos_PI4, sin_PI4. f_equal; lra.
Qed.

(** The phase gate is a quarter-turn about Z, up to the phase [e^{iπ/4}]. *)
Lemma S_gate_Rz : S_gate = Mscale (cis (PI / 4)) (Rz_gate (1 / 2)).
Proof.
  unfold Rz_gate. replace (PI * (1 / 2) / 2) with (PI / 4) by lra.
  rewrite cis_neg, cis_PI4. unfold cis. rewrite cos_PI4, sin_PI4.
  pose proof inv_sqrt2_sqr as Hs.
  unfold S_gate, Mscale, Cmul, RtoC, Ci. simpl.
  f_equal; f_equal; nra.
Qed.

(** Hadamard, phase, Hadamard is a quarter-turn about X, up to the same
    phase. *)
Lemma HSH_gate_Rx :
  Mmul H_gate (Mmul S_gate H_gate) = Mscale (cis (PI / 4)) (Rx_gate (1 / 2)).
Proof.
  unfold Rx_gate. replace (PI * (1 / 2) / 2) with (PI / 4) by lra.
  rewrite cis_PI4, cos_PI4, sin_PI4.
  pose proof inv_sqrt2_sqr as Hs.
  unfold H_gate, S_gate, Mmul, Mscale, Cmul, Cadd, RtoC, Ci. simpl.
  f_equal; f_equal; nra.
Qed.

Lemma commands_unitary_app (l1 l2 : list Command) (acc : M2) :
  commands_unitary (l1 ++ l2) acc =
  match commands_unitary l1 acc with
  | Some U => commands_unitary l2 U
  | None => None
  end.
Proof.
  revert acc. induction l1 as [|cmd l1 IH]; intros acc; simpl; [reflexivity|].
  destruct (decide _); [|reflexivity].
  destruct (gate_unitary (op cmd)); [apply IH|reflexivity].
Qed.

Lemma Pz_plus (x y : R) : Mmul (Pz x) (Pz y) = Pz (x + y).
Proof.
  unfold Pz.
  replace ((x + y) * (PI / 4)) with (x * (PI / 4) + y * (PI / 4)) by lra.
  replace ((x + y) / 2) with (x / 2 + y / 2) by lra.
  rewrite cis_plus, Rz_gate_plus.
  now rewrite Mscale_Mmul_l, Mscale_Mmul_r, Mscale_Mscale.
Qed.

Lemma Px_plus (x y : R) : Mmul (Px x) (Px y) = Px (x + y).
Proof.
  unfold Px.
  replace ((x + y) * (PI / 4)) with (x * (PI / 4) + y * (PI / 4)) by lra.
  replace ((x + y) / 2) with (x / 2 + y / 2) by lra.
  rewrite cis_plus, Rx_gate_plus.
  now rewrite Mscale_Mmul_l, Mscale_Mmul_r, Mscale_Mscale.
Qed.

Lemma Pz_0 : Pz 0 = I2.
Proof.
  unfold Pz. replace (0 * (PI / 4)) with 0 by lra.
  replace (0 / 2) with 0 by lra.
  now rewrite cis_0, Rz_gate_0, Mscale_1.
Qed.

Lemma Px_0 : Px 0 = I2.
Proof.
  unfold Px. replace (0 * (PI / 4)) with 0 by lra.
  replace (0 / 2) with 0 by lra.
  now rewrite cis_0, Rx_gate_0, Mscale_1.
Qed.

Lemma Pz_1 : Pz 1 = S_gate.
Proof. unfold Pz. rewrite Rmult_1_l. symmetry. apply S_gate_Rz. Qed.

Lemma Px_1 : Px 1 = Mmul H_gate (Mmul S_gate H_gate).
Proof. unfold Px. rewrite Rmult_1_l. symmetry. apply HSH_gate_Rx. Qed.

Lemma S_sequence_unitary (k : nat) (acc : M2) :
  commands_unitary (replicate k (on_q0 OpType.S)) acc =
  Some (Mmul (Pz (INR k)) acc).
Proof.
  revert acc. induction k as [|k IH]; intros acc.
  - simpl. now rewrite Pz_0, Mmul_I2_l.
  - cbn [replicate commands_unitary on_q0 args op gate_unitary].
    rewrite decide_True by reflexivity.
    rewrite IH, S_INR, <- Pz_plus, Pz_1. now rewrite Mmul_assoc.
Qed.

Lemma HSH_sequence_unitary (k : nat) (acc : M2) :
  commands_unitary
    (concat (replicate k [on_q0 OpType.H; on_q0 OpType.S; on_q0 OpType.H]))
    acc =
  Some (Mmul (Px (INR k)) acc).
Proof.
  revert acc. induction k as [|k IH]; intros acc.
  - simpl. now rewrite Px_0, Mmul_I2_l.
  - cbn [replicate concat app commands_unitary on_q0 args op gate_unitary].
    rewrite !decide_True by reflexivity.
    rewrite IH, S_INR, <- Px_plus, Px_1. now rewrite !Mmul_assoc.
Qed.

Lemma INR_to_nat (n : Z) : (0 <= n)%Z -> INR (Z.to_nat n) = IZR n.
Proof. intros Hn. now rewrite INR_IZR_INZ, Z2Nat.id. Qed.

(** The generator sequence for residues [n_a], [n_b], [n_c], with its
    phase correction, is exactly [TK1(n_a/2, n_b/2, n_c/2)]. *)
Lemma generator_sequence_unitary (n_a n_b n_c : Z) (p : Q) :
  (0 <= n_a)%Z -> (0 <= n_b)%Z -> (0 <= n_c)%Z ->
  (p == - (1 # 4) * inject_Z (n_a + n_b + n_c))%Q ->
  get_unitary
    (mkCircuit [q_ 0] []
       (phase_gates n_c ++ conjugated_phase_gates n_b ++ phase_gates n_a) p) =
  Some (TK1_gate (IZR n_a / 2) (IZR n_b / 2) (IZR n_c / 2)).
Proof.
  intros Ha Hb Hc Hp. unfold get_unitary.
  cbn [qubits get_commands phase].
  rewrite decide_True by reflexivity.
  unfold phase_gates, conjugated_phase_gates.
  rewrite commands_unitary_app, S_sequence_unitary. cbv beta iota.
  rewrite commands_unitary_app, HSH_sequence_unitary. cbv beta iota.
  rewrite S_sequence_unitary.
  rewrite !INR_to_nat by assumption. f_equal.
  rewrite (Qeq_eqR _ _ Hp), Q2R_mult, Q2R_opp.
  replace (Q2R (1 # 4)) with (/ 4) by (unfold Q2R; simpl; lra).
  replace (Q2R (inject_Z (n_a + n_b + n_c))) with (IZR (n_a + n_b + n_c))
    by (unfold Q2R; simpl; lra).
  rewrite !plus_IZR, Mmul_I2_r. unfold Pz, Px, TK1_gate.
  repeat (rewrite Mscale_Mmul_l || rewrite Mscale_Mmul_r
          || rewrite Mscale_Mscale).
  rewrite <- !cis_plus.
  replace (_ + _) with 0 by lra.
  now rewrite cis_0, Mscale_1.
Qed.

Lemma Rz_gate_mod8 (n : Z) : Rz_gate (IZR (n mod 8) / 2) = Rz_gate (IZR n / 2).
Proof.
  rewrite <- (Rz_gate_period (IZR (n mod 8) / 2) (n / 8)). f_equal.
  rewrite (Z.div_mod n 8) at 3 by lia. rewrite plus_IZR, mult_IZR. lra.
Qed.

Lemma Rx_gate_mod8 (n : Z) : Rx_gate (IZR (n mod 8) / 2) = Rx_gate (IZR n / 2).
Proof.
  rewrite <- (Rx_gate_period (IZR (n mod 8) / 2) (n / 8)). f_equal.
  rewrite (Z.div_mod n 8) at 3 by lia. rewrite plus_IZR, mult_IZR. lra.
Qed.

Lemma Q2R_nearest_half (x : Q) :
  Q2R (nearest_half x) = IZR (Decomposer.np_round (2 * x)) / 2.
Proof.
  unfold nearest_half. rewrite Q2R_div by discriminate.
  rewrite Q2R_inject_Z. f_equal. unfold Q2R. simpl. lra.
Qed.

Lemma np_round_integer (y : Q) (n : Z) :
  (y == inject_Z n)%Q -> Decomposer.np_round y = n.
Proof.
  intros Hy. unfold Decomposer.np_round.
  rewrite (Qfloor_comp _ _ Hy), Qfloor_Z.
  assert (Hlt : (y - inject_Z n < 1 # 2)%Q) by (rewrite Hy; lra).
  apply Qlt_alt in Hlt. unfold Qcompare in *. now rewrite Hlt.
Qed.

Lemma half_integer_nearest (x : Q) :
  half_integer x -> (nearest_half x == x)%Q.
Proof.
  intros [n Hn]. unfold nearest_half.
  rewrite (np_round_integer _ _ Hn), <- Hn. field.
Qed.

Lemma half_integer_within_tolerance (x : Q) :
  half_integer x -> within_tolerance x.
Proof.
  intros [n Hn]. unfold within_tolerance. cbv zeta.
  rewrite (np_round_integer _ _ Hn).
  assert (Hz : (2 * x - inject_Z n == 0)%Q) by (rewrite Hn; ring).
  rewrite Hz. change (Qabs 0) with 0%Q.
  pose proof (Qabs_nonneg (inject_Z n)) as Hpos.
  unfold Decomposer.atol, Decomposer.rtol.
  generalize dependent (Qabs (inject_Z n)). intros q Hq. lra.
Qed.

(** The circuit built from the residues of [N_a], [N_b], [N_c] modulo 8
    is [TK1] at the half-integers [N_a/2], [N_b/2], [N_c/2]. *)
Lemma residue_circuit_unitary (N_a N_b N_c : Z) :
  get_unitary
    (mkCircuit [q_ 0] []
       (phase_gates (N_c mod 8) ++ conjugated_phase_gates (N_b mod 8) ++
        phase_gates (N_a mod 8))
       (0 + - (1 # 4) * inject_Z (N_a mod 8 + N_b mod 8 + N_c mod 8))%Q) =
  Some (TK1_gate (IZR N_a / 2) (IZR N_b / 2) (IZR N_c / 2)).
Proof.
  rewrite generator_sequence_unitary; [|apply Z.mod_pos_bound; lia..|ring].
  unfold TK1_gate. now rewrite !Rz_gate_mod8, Rx_gate_mod8.
Qed.

Lemma Q2R_half_integer (x : Q) :
  half_integer x -> Q2R x = IZR (Decomposer.np_round (2 * x)) / 2.
Proof.
  intros Hx. rewrite <- Q2R_nearest_half. apply Qeq_eqR. symmetry.
  now apply half_integer_nearest.
Qed.

(** C1, as the code has it: an accepted triple yields a circuit whose
    unitary, phase correction included, is the [TK1] rotation at the
    multiples of 0.5 nearest to [a], [b], [c]; it is the original
    [TK1(a, b, c)] whenever the three angles are exact multiples of 0.5,
    which covers every residue combination modulo 8. *)
Theorem tk1_to_cliff_unitary (a b c : Q) :
  within_tolerance a -> within_tolerance b -> within_tolerance c ->
  exists circ : Circuit,
    Rebase._tk1_to_cliff a b c = Ok circ /\
    get_unitary circ =
      Some (TK1_gate (Q2R (nearest_half a)) (Q2R (nearest_half b))
                     (Q2R (nearest_half c))) /\
    (half_integer a -> half_integer b -> half_integer c ->
     get_unitary circ = Some (TK1_gate (Q2R a) (Q2R b) (Q2R c))).
Proof.
  intros Ha Hb Hc.
  pose proof (int_double_accepts a Ha) as Ea.
  pose proof (int_double_accepts b Hb) as Eb.
  pose proof (int_double_accepts c Hc) as Ec.
  eexists. split; [apply tk1_to_cliff_accepts; eassumption|].
  rewrite residue_circuit_unitary. split.
  - now rewrite !Q2R_nearest_half.
  - intros Ia Ib Ic.
    now rewrite (Q2R_half_integer a Ia), (Q2R_half_integer b Ib),
      (Q2R_half_integer c Ic).
Qed.

Lemma tk1_to_cliff_unitary_witness :
  exists circ : Circuit,
    Rebase._tk1_to_cliff (1 # 2) (3 # 2) (13 # 2) = Ok circ /\
    get_unitary circ =
      Some (TK1_gate (Q2R (1 # 2)) (Q2R (3 # 2)) (Q2R (13 # 2))).
Proof.
  assert (Hw : forall n : Z, within_tolerance (n # 2) -> half_integer (n # 2)).
  { intros n _. exists n. unfold Qeq. simpl. lia. }
  assert (Ha : within_tolerance (1 # 2)) by (vm_compute; discriminate).
  assert (Hb : within_tolerance (3 # 2)) by (vm_compute; discriminate).
  assert (Hc : within_tolerance (13 # 2)) by (vm_compute; discriminate).
  destruct (tk1_to_cliff_unitary (1 # 2) (3 # 2) (13 # 2) Ha Hb Hc)
    as (circ & Hrun & _ & Hexact).
  exists circ. split; [exact Hrun|].
  apply Hexact; apply Hw; assumption.
Defined.

(** Every residue combination: at the exact angles [n_a/2], [n_b/2],
    [n_c/2] the decomposer succeeds and its circuit is [TK1] itself. *)
Lemma tk1_to_cliff_canonical_residues (n_a n_b n_c : Z) :
  exists circ : Circuit,
    Rebase._tk1_to_cliff (n_a # 2) (n_b # 2) (n_c # 2) = Ok circ /\
    get_commands circ =
      phase_gates (n_c mod 8) ++ conjugated_phase_gates (n_b mod 8) ++
      phase_gates (n_a mod 8) /\
    get_unitary circ =
      Some (TK1_gate (IZR n_a / 2) (IZR n_b / 2) (IZR n_c / 2)).
Proof.
  assert (Hh : forall n : Z, (2 * (n # 2) == inject_Z n)%Q).
  { intros n. unfold Qeq. simpl. lia. }
  assert (Hi : forall n : Z, half_integer (n # 2)) by (intros n; now exists n).
  assert (Hd : forall n : Z, Decomposer._int_double (n # 2) = Ok (n mod 8)%Z).
  { intros n. rewrite int_double_accepts
      by apply half_integer_within_tolerance, Hi.
    now rewrite (np_round_integer _ _ (Hh n)). }
  eexists. split.
  { apply tk1_to_cliff_accepts; apply Hd. }
  split; [reflexivity|]. apply residue_circuit_unitary.
Qed.

Lemma TK1_gate_Rz (x : R) : TK1_gate x 0 0 = Rz_gate x.
Proof.
  unfold TK1_gate. now rewrite Rx_gate_0, Rz_gate_0, !Mmul_I2_r.
Qed.

(** A Z rotation by an angle strictly inside a half-turn is no scalar
    multiple of the identity. *)
Lemma Rz_gate_not_scalar (x : R) (z : C) :
  0 < sin (PI * x / 2) -> I2 <> Mscale z (Rz_gate x).
Proof.
  intros Hsin Heq. unfold Rz_gate in Heq. rewrite cis_neg in Heq.
  destruct z as [u v].
  unfold I2, Mscale, Cmul, cis, RtoC in Heq. simpl in Heq.
  injection Heq as H1 H2 _ _ _ _ H3 H4.
  set (s := sin (PI * x / 2)) in *. set (k := cos (PI * x / 2)) in *.
  assert (Hv : v * s = 0) by lra.
  assert (Hu : u * s = 0) by lra.
  apply Rmult_integral in Hv as [Hv|Hv]; [|lra].
  apply Rmult_integral in Hu as [Hu|Hu]; [|lra].
  subst u v. lra.
Qed.

Lemma identity_circuit_unitary :
  get_unitary (mkCircuit [q_ 0] [] [] (0 + - (1 # 4) * inject_Z 0)%Q) =
  Some I2.
Proof.
  pose proof (generator_sequence_unitary 0 0 0
                (0 + - (1 # 4) * inject_Z 0)%Q) as Hgen.
  change (phase_gates 0 ++ conjugated_phase_gates 0 ++ phase_gates 0)
    with (@nil Command) in Hgen.
  rewrite Hgen by (try lia; reflexivity).
  unfold TK1_gate. replace (0 / 2) with 0 by lra.
  now rewrite Rz_gate_0, Rx_gate_0, !Mmul_I2_r.
Qed.

Lemma Q2R_0 : Q2R 0 = 0.
Proof. unfold Q2R. simpl. lra. Qed.

(** C1 as stated fails inside the tolerance: the angle [1e-9] is accepted
    as the multiple [0], the emitted circuit is the identity, and
    [TK1(1e-9, 0, 0)] is not the identity, not even up to a global
    phase. *)
Lemma tk1_to_cliff_inexact_within_tolerance :
  within_tolerance (1 # 1000000000) /\ within_tolerance 0 /\
  exists (circ : Circuit) (U : M2),
    Rebase._tk1_to_cliff (1 # 1000000000) 0 0 = Ok circ /\
    get_unitary circ = Some U /\
    U <> TK1_gate (Q2R (1 # 1000000000)) (Q2R 0) (Q2R 0) /\
    ~ phase_equiv U (TK1_gate (Q2R (1 # 1000000000)) (Q2R 0) (Q2R 0)).
Proof.
  split; [vm_compute; discriminate|]. split; [vm_compute; discriminate|].
  exists (mkCircuit [q_ 0] [] [] (0 + - (1 # 4) * inject_Z 0)%Q), I2.
  split; [reflexivity|]. split; [apply identity_circuit_unitary|].
  rewrite Q2R_0, TK1_gate_Rz.
  assert (Hsin : 0 < sin (PI * Q2R (1 # 1000000000) / 2)).
  { pose proof PI_RGT_0 as Hpi.
    apply sin_gt_0; unfold Q2R; simpl; lra. }
  split.
  - intros Heq. apply (Rz_gate_not_scalar _ (RtoC 1) Hsin).
    now rewrite Mscale_1.
  - intros [t Heq]. exact (Rz_gate_not_scalar _ _ Hsin Heq).
Qed.

(** The relative part of the tolerance grows with the angle: [25000.25]
    is accepted as [25000], so here the emitted circuit (the identity) and
    [TK1(25000.25, 0, 0)], an eighth-turn about Z, are far apart. *)
Lemma tk1_to_cliff_large_angle :
  within_tolerance (100001 # 4) /\
  exists (circ : Circuit) (U : M2),
    Rebase._tk1_to_cliff (100001 # 4) 0 0 = Ok circ /\
    get_unitary circ = Some U /\
    ~ phase_equiv U (TK1_gate (Q2R (100001 # 4)) (Q2R 0) (Q2R 0)).
Proof.
  split; [vm_compute; discriminate|].
  exists (mkCircuit [q_ 0] [] [] (0 + - (1 # 4) * inject_Z 0)%Q), I2.
  split; [reflexivity|]. split; [apply identity_circuit_unitary|].
  rewrite Q2R_0, TK1_gate_Rz.
  assert (Hsin : 0 < sin (PI * Q2R (100001 # 4) / 2)).
  { pose proof PI_RGT_0 as Hpi.
    replace (PI * Q2R (100001 # 4) / 2)
      with (PI / 8 + 2 * INR (Z.to_nat 6250) * PI).
    - rewrite sin_period. apply sin_gt_0; lra.
    - rewrite INR_to_nat by lia. unfold Q2R.
      cbn [Qnum Qden]. lra. }
  intros [t Heq]. exact (Rz_gate_not_scalar _ _ Hsin Heq).
Qed.
End UnitaryFacts.

(** ** The circuit translator *)

(** Well-formedness of the commands of a concrete circuit. *)
Ltac solve_well_formed :=
  repeat match goal with
         | |- Forall _ _ => constructor
         | |- Spec.well_formed _ _ =>
             unfold Spec.well_formed; cbn [op args];
             first [ rewrite decide_True by reflexivity;
                     eexists _, _; split; [reflexivity|];
                     split; [reflexivity|compute_done]
                   | rewrite decide_False by discriminate;
                     split; [compute_done|] ]
         | |- _ ∈ _ => compute_done
         end.

Section TranslatorFacts.
Import Translator Spec.
Local Open Scope nat_scope.

Lemma remove_dups_length_le (l : list UnitID) :
  length (remove_dups l) <= length l.
Proof.
  induction l as [|x l IH]; simpl; [lia|].
  destruct (decide_rel _ x l); simpl; lia.
Qed.

(** The duplicate test of line 117 is a test of [NoDup]. *)
Lemma remove_dups_length_NoDup (l : list UnitID) :
  length (remove_dups l) = length l <-> NoDup l.
Proof.
  induction l as [|x l IH]; simpl.
  - split; [constructor|reflexivity].
  - pose proof (remove_dups_length_le l) as Hle.
    rewrite NoDup_cons.
    destruct (decide_rel _ x l) as [Hin|Hin]; simpl.
    + split; [lia|tauto].
    + rewrite <- IH. split; [intros [= ->]; tauto|intros [_ ->]; reflexivity].
Qed.

Lemma list_index_elem (x : UnitID) (l : list UnitID) :
  x ∈ l -> exists i, list_index x l = Ok i.
Proof.
  induction l as [|y l IH]; intros Hin; [now apply elem_of_nil in Hin|].
  simpl. destruct (decide (x = y)) as [->|Hne]; [now exists 0|].
  apply elem_of_cons in Hin as [?|Hin]; [contradiction|].
  destruct (IH Hin) as [i ->]. now exists (Datatypes.S i).
Qed.

Lemma list_index_raises (x : UnitID) (l : list UnitID) (e : exn) :
  list_index x l = Raise e -> e = NotInList /\ x ∉ l.
Proof.
  induction l as [|y l IH]; simpl.
  - intros [= <-]. split; [reflexivity|apply not_elem_of_nil].
  - destruct (decide (x = y)) as [->|Hne]; [discriminate|].
    destruct (list_index x l) as [i|e'] eqn:E; simpl; [discriminate|].
    intros [= <-]. destruct (IH eq_refl) as [-> Hnin].
    split; [reflexivity|]. rewrite elem_of_cons. tauto.
Qed.

Lemma list_index_not_elem (x : UnitID) (l : list UnitID) :
  x ∉ l -> list_index x l = Raise NotInList.
Proof.
  intros Hnin. destruct (list_index x l) as [i|e] eqn:E.
  - exfalso. apply Hnin. clear Hnin. revert i E.
    induction l as [|y l IH]; intros i; simpl; [discriminate|].
    destruct (decide (x = y)) as [->|Hne]; [intros _; apply list_elem_of_here|].
    destruct (list_index x l) as [j|] eqn:Ej; simpl; [|discriminate].
    intros _. apply list_elem_of_further. now apply (IH j).
  - now apply list_index_raises in E as [-> _].
Qed.

(** [l.index(x)] is the first position holding [x]. *)
Lemma list_index_lookup (x : UnitID) (l : list UnitID) (i : nat) :
  list_index x l = Ok i ->
  l !! i = Some x /\ forall j, j < i -> l !! j <> Some x.
Proof.
  revert i. induction l as [|y l IH]; intros i; simpl; [discriminate|].
  destruct (decide (x = y)) as [->|Hne].
  - intros [= <-]. split; [reflexivity|lia].
  - destruct (list_index x l) as [j|] eqn:Ej; simpl; [|discriminate].
    intros [= <-]. destruct (IH j eq_refl) as [Hj Hfirst].
    split; [exact Hj|].
    intros [|k] Hk; simpl; [congruence|apply Hfirst; lia].
Qed.

(** In a ledger without duplicates it is the only position. *)
Lemma list_index_ledger_position (x : UnitID) (l : list UnitID) (i : nat) :
  NoDup l -> list_index x l = Ok i -> ledger_position l x i.
Proof.
  intros Hnd Hi. apply list_index_lookup in Hi as [Hi _].
  split; [exact Hi|].
  intros i' Hi'. exact (NoDup_lookup l i' i x Hnd Hi' Hi).
Qed.

Lemma comprehension_Ok {A B} (f : A -> result B) (l : list A) (ys : list B) :
  comprehension f l = Ok ys <-> Forall2 (fun x y => f x = Ok y) l ys.
Proof.
  revert ys. induction l as [|x l IH]; intros ys; simpl.
  - split; [intros [= <-]; constructor|intros Hf; now inversion Hf].
  - destruct (f x) as [y|e] eqn:Ex; simpl.
    + destruct (comprehension f l) as [ys'|e] eqn:El; simpl.
      * split.
        -- intros [= <-]. constructor; [exact Ex|now apply IH].
        -- intros Hf. inversion Hf as [|? y' ? ys'' Hy Hrest]; subst.
           apply IH in Hrest. congruence.
      * split; [discriminate|].
        intros Hf. inversion Hf as [|? y' ? ys'' Hy Hrest]; subst.
        apply IH in Hrest. discriminate.
    + split; [discriminate|].
      intros Hf. inversion Hf; subst. congruence.
Qed.

(** A comprehension raises what its first failing element raises. *)
Lemma comprehension_raises {A B} (f : A -> result B) (l : list A) (e : exn) :
  comprehension f l = Raise e -> exists x, x ∈ l /\ f x = Raise e.
Proof.
  induction l as [|x l IH]; simpl; [discriminate|].
  destruct (f x) as [y|e'] eqn:Ex; simpl.
  - destruct (comprehension f l) as [ys|e'] eqn:El; simpl; [discriminate|].
    intros [= <-]. destruct (IH eq_refl) as (x' & Hin & Hx').
    exists x'. split; [now apply list_elem_of_further|exact Hx'].
  - intros [= <-]. exists x. split; [apply list_elem_of_here|exact Ex].
Qed.

Lemma for_each_app {A St} (body : St -> A -> result St) (l1 l2 : list A)
      (st : St) :
  for_each body (l1 ++ l2) st =
  Pure.bind (for_each body l1 st) (for_each body l2).
Proof.
  revert st. induction l1 as [|x l1 IH]; intros st; simpl; [reflexivity|].
  destruct (body st x); simpl; [apply IH|reflexivity].
Qed.

Lemma measured_bits_app (l1 l2 : list Command) :
  measured_bits (l1 ++ l2) = measured_bits l1 ++ measured_bits l2.
Proof. unfold measured_bits. now rewrite map_app, concat_app. Qed.

Lemma measured_bits_cons (cmd : Command) (l : list Command) :
  measured_bits (cmd :: l) = measured_bit cmd ++ measured_bits l.
Proof. reflexivity. Qed.

Lemma overwritten_test (rb : list UnitID) :
  (if decide (length (remove_dups rb) ≠ length rb)
   then Raise MeasurementOverwritten else Ok tt) =
  (if decide (NoDup rb) then Ok tt else Raise MeasurementOverwritten).
Proof.
  destruct (decide (length _ ≠ _)) as [Hne|Heq], (decide (NoDup rb)) as [Hnd|Hnd];
    try reflexivity; exfalso.
  - apply Hne. now apply remove_dups_length_NoDup.
  - apply Hnd. apply remove_dups_length_NoDup.
    destruct (decide (length (remove_dups rb) = length rb)); tauto.
Qed.

Lemma dict_get_key {V} (d : dict OpType.t V) (k : OpType.t) :
  k ∈ keys d <-> exists v, dict_get d k = Ok v.
Proof.
  induction d as [|[k' v'] d IH]; simpl.
  - split; [intros Hin; now apply elem_of_nil in Hin|intros [v [=]]].
  - rewrite elem_of_cons. destruct (decide (k = k')) as [->|Hne].
    + split; [intros _; now exists v'|now left].
    + rewrite IH. split; [intros [?|?]; [contradiction|assumption]|now right].
Qed.

Lemma dict_get_raises {V} (d : dict OpType.t V) (k : OpType.t) (e : exn) :
  dict_get d k = Raise e -> e = KeyError k /\ k ∉ keys d.
Proof.
  intros He. split.
  - induction d as [|[k' v'] d IH]; simpl in He; [congruence|].
    destruct (decide (k = k')); [discriminate|auto].
  - intros Hin. apply dict_get_key in Hin as [v Hv]. congruence.
Qed.

(** What one iteration leaves in the ledger when it does not raise. *)
Lemma loop_body_ledger (qubits : list UnitID) (c c' : StimCircuit)
      (rb rb' : list UnitID) (cmd : Command) :
  loop_body qubits (c, rb) cmd = Ok (c', rb') ->
  rb' = rb ++ measured_bit cmd /\ NoDup rb'.
Proof.
  unfold loop_body, measured_bit.
  destruct (decide (op cmd = OpType.Measure)) as [Hm|Hm].
  - destruct (args cmd) as [|qb [|cb [|? ?]]]; cbn [Pure.bind snd]; try discriminate.
    destruct (is_Qubit qb); cbn [Pure.bind snd]; [|discriminate].
    destruct (list_index qb qubits) as [i|e]; cbn [Pure.bind snd]; [|discriminate].
    destruct (decide (length _ ≠ _)) as [Hne|Heq]; [discriminate|].
    intros [= <- <-]. split; [reflexivity|].
    apply remove_dups_length_NoDup.
    destruct (decide (length (remove_dups (rb ++ [cb])) = length (rb ++ [cb])));
      tauto.
  - destruct (comprehension _ _) as [qbs|e]; cbn [Pure.bind snd]; [|discriminate].
    destruct (dict_get _gate (op cmd)) as [name|e]; cbn [Pure.bind snd]; [|discriminate].
    destruct (decide (length _ ≠ _)) as [Hne|Heq]; [discriminate|].
    intros [= <- <-]. rewrite app_nil_r. split; [reflexivity|].
    apply remove_dups_length_NoDup.
    destruct (decide (length (remove_dups rb) = length rb)); tauto.
Qed.

(** An iteration raises the overwrite error only on a duplicate. *)
Lemma loop_body_overwritten (qubits : list UnitID) (c : StimCircuit)
      (rb : list UnitID) (cmd : Command) :
  loop_body qubits (c, rb) cmd = Raise MeasurementOverwritten ->
  ~ NoDup (rb ++ measured_bit cmd).
Proof.
  unfold loop_body, measured_bit.
  destruct (decide (op cmd = OpType.Measure)) as [Hm|Hm].
  - destruct (args cmd) as [|qb [|cb [|? ?]]]; cbn [Pure.bind snd]; try discriminate.
    destruct (is_Qubit qb); cbn [Pure.bind snd]; [|discriminate].
    destruct (list_index qb qubits) as [i|e] eqn:Ei; cbn [Pure.bind snd].
    + destruct (decide (length _ ≠ _)) as [Hne|Heq]; [|discriminate].
      intros _ Hnd. now apply remove_dups_length_NoDup in Hnd.
    + apply list_index_raises in Ei as [-> _]. discriminate.
  - destruct (comprehension _ _) as [qbs|e] eqn:Eq; cbn [Pure.bind snd].
    + destruct (dict_get _gate (op cmd)) as [name|e] eqn:Eg; cbn [Pure.bind snd].
      * destruct (decide (length _ ≠ _)) as [Hne|Heq]; [|discriminate].
        intros _ Hnd. rewrite app_nil_r in Hnd.
        now apply remove_dups_length_NoDup in Hnd.
      * apply dict_get_raises in Eg as [-> _]. discriminate.
    + apply comprehension_raises in Eq as (x & _ & Hx).
      apply list_index_raises in Hx as [-> _]. discriminate.
Qed.

(** A well-formed command is translated, or trips the duplicate test. *)
Lemma loop_body_well_formed (qubits : list UnitID) (c : StimCircuit)
      (rb : list UnitID) (cmd : Command) :
  well_formed qubits cmd ->
  (NoDup (rb ++ measured_bit cmd) ->
   exists ins, loop_body qubits (c, rb) cmd =
               Ok (append_operation c (fst ins) (snd ins),
                   rb ++ measured_bit cmd)) /\
  (~ NoDup (rb ++ measured_bit cmd) ->
   loop_body qubits (c, rb) cmd = Raise MeasurementOverwritten).
Proof.
  unfold well_formed, loop_body, measured_bit.
  destruct (decide (op cmd = OpType.Measure)) as [Hm|Hm].
  - intros (qb & cb & -> & -> & Hqb).
    destruct (list_index_elem qb qubits Hqb) as [i ->]. cbn [Pure.bind snd].
    split; intros Hnd.
    + rewrite decide_False; [now exists ("M"%string, [i])|].
      intros Hne. apply Hne. now apply remove_dups_length_NoDup.
    + rewrite decide_True; [reflexivity|].
      intros Heq. now apply remove_dups_length_NoDup in Heq.
  - intros [Hkey Hargs].
    assert (Hqbs : exists qbs,
              comprehension (fun arg => list_index arg qubits) (args cmd) = Ok qbs).
    { induction Hargs as [|arg l Harg _ IH]; simpl; [now eexists|].
      destruct (list_index_elem arg qubits Harg) as [i ->].
      destruct IH as [qbs ->]. now eexists. }
    destruct Hqbs as [qbs ->].
    apply dict_get_key in Hkey as [name ->]. cbn [Pure.bind snd].
    rewrite app_nil_r. split; intros Hnd.
    + rewrite decide_False; [now exists (name, qbs)|].
      intros Hne. apply Hne. now apply remove_dups_length_NoDup.
    + rewrite decide_True; [reflexivity|].
      intros Heq. now apply remove_dups_length_NoDup in Heq.
Qed.

(** The ledger a successful loop leaves: the measured bits, in command
    order, without duplicates. *)
Lemma for_each_ledger (qubits : list UnitID) (cmds : list Command)
      (c c' : StimCircuit) (rb rb' : list UnitID) :
  NoDup rb ->
  for_each (loop_body qubits) cmds (c, rb) = Ok (c', rb') ->
  rb' = rb ++ measured_bits cmds /\ NoDup rb'.
Proof.
  revert c rb. induction cmds as [|cmd cmds IH]; intros c rb Hnd; cbn [for_each Pure.bind].
  - intros [= <- <-]. rewrite app_nil_r. now split.
  - destruct (loop_body qubits (c, rb) cmd) as [[c1 rb1]|e] eqn:E; cbn [for_each Pure.bind];
      [|discriminate].
    apply loop_body_ledger in E as [-> Hnd1].
    intros Hrest. apply IH in Hrest as [-> Hnd']; [|exact Hnd1].
    rewrite measured_bits_cons, app_assoc. now split.
Qed.

Lemma for_each_well_formed (qubits : list UnitID) (cmds : list Command)
      (c : StimCircuit) (rb : list UnitID) :
  Forall (well_formed qubits) cmds ->
  NoDup (rb ++ measured_bits cmds) ->
  exists c', for_each (loop_body qubits) cmds (c, rb) =
             Ok (c', rb ++ measured_bits cmds).
Proof.
  intros Hwf. revert c rb.
  induction Hwf as [|cmd cmds Hcmd _ IH]; intros c rb Hnd;
    cbn [for_each Pure.bind].
  - exists c. now rewrite app_nil_r.
  - rewrite measured_bits_cons, app_assoc in Hnd.
    destruct (loop_body_well_formed qubits c rb cmd Hcmd) as [Hok _].
    destruct Hok as [ins ->]; [now apply NoDup_app in Hnd as [? _]|].
    cbn [for_each Pure.bind].
    destruct (IH (append_operation c (fst ins) (snd ins)) _ Hnd)
      as (c' & Hc').
    exists c'. rewrite measured_bits_cons, app_assoc. exact Hc'.
Qed.

Lemma for_each_overwritten (qubits : list UnitID) (cmds : list Command)
      (c : StimCircuit) (rb : list UnitID) :
  Forall (well_formed qubits) cmds ->
  ~ NoDup (rb ++ measured_bits cmds) ->
  NoDup rb ->
  for_each (loop_body qubits) cmds (c, rb) = Raise MeasurementOverwritten.
Proof.
  intros Hwf. revert c rb.
  induction Hwf as [|cmd cmds Hcmd _ IH]; intros c rb Hdup Hnd; cbn [for_each Pure.bind].
  - rewrite app_nil_r in Hdup. contradiction.
  - rewrite measured_bits_cons, app_assoc in Hdup.
    destruct (loop_body_well_formed qubits c rb cmd Hcmd) as [Hok Hbad].
    destruct (decide (NoDup (rb ++ measured_bit cmd))) as [Hnd1|Hdup1].
    + destruct (Hok Hnd1) as [ins ->]. cbn [for_each Pure.bind]. now apply IH.
    + now rewrite (Hbad Hdup1).
Qed.

Lemma for_each_not_overwritten (qubits : list UnitID) (cmds : list Command)
      (c : StimCircuit) (rb : list UnitID) :
  NoDup (rb ++ measured_bits cmds) ->
  for_each (loop_body qubits) cmds (c, rb) <> Raise MeasurementOverwritten.
Proof.
  revert c rb. induction cmds as [|cmd cmds IH]; intros c rb Hnd; cbn [for_each Pure.bind];
    [discriminate|].
  rewrite measured_bits_cons, app_assoc in Hnd.
  destruct (loop_body qubits (c, rb) cmd) as [[c1 rb1]|e] eqn:E; cbn [for_each Pure.bind].
  - apply loop_body_ledger in E as [-> _]. now apply IH.
  - intros [= ->]. apply loop_body_overwritten in E.
    now apply NoDup_app in Hnd as [? _].
Qed.

Lemma for_each_raises {A St} (body : St -> A -> result St) (l : list A)
      (st : St) (e : exn) :
  for_each body l st = Raise e ->
  exists x st', x ∈ l /\ body st' x = Raise e.
Proof.
  revert st. induction l as [|x l IH]; intros st; cbn [for_each];
    [discriminate|].
  destruct (body st x) as [st1|e'] eqn:E; cbn [Pure.bind].
  - intros Hrest. destruct (IH _ Hrest) as (x' & st' & Hin & Hx').
    exists x', st'. split; [now apply list_elem_of_further|exact Hx'].
  - intros [= <-]. exists x, st. split; [apply list_elem_of_here|exact E].
Qed.

(** Only the gate-map lookup of line 116 raises [KeyError]. *)
Lemma loop_body_key_error (qubits : list UnitID)
      (st : StimCircuit * list UnitID) (cmd : Command) (t : OpType.t) :
  loop_body qubits st cmd = Raise (KeyError t) -> op cmd ∉ keys _gate.
Proof.
  destruct st as [c rb]. unfold loop_body.
  destruct (decide (op cmd = OpType.Measure)) as [Hm|Hm].
  - destruct (args cmd) as [|qb [|cb [|? ?]]]; cbn [Pure.bind snd];
      try discriminate.
    destruct (is_Qubit qb); cbn [Pure.bind snd]; [|discriminate].
    destruct (list_index qb qubits) as [i|e] eqn:Ei; cbn [Pure.bind snd].
    + destruct (decide (length _ ≠ _)); discriminate.
    + apply list_index_raises in Ei as [-> _]. discriminate.
  - destruct (comprehension _ _) as [qbs|e] eqn:Eq; cbn [Pure.bind snd].
    + destruct (dict_get _gate (op cmd)) as [name|e] eqn:Eg;
        cbn [Pure.bind snd].
      * destruct (decide (length _ ≠ _)); discriminate.
      * intros _. now apply dict_get_raises in Eg as [_ ?].
    + apply comprehension_raises in Eq as (x & _ & Hx).
      apply list_index_raises in Hx as [-> _]. discriminate.
Qed.

(** With every gate type in the gate map, no lookup fails. *)
Lemma supported_gates_no_key_error (circ : Circuit) (t : OpType.t) :
  Forall (fun cmd => op cmd ∈ keys _gate) (get_commands circ) ->
  translate circ <> Raise (KeyError t).
Proof.
  intros Hkeys Ht. unfold translate in Ht.
  apply for_each_raises in Ht as (cmd & st & Hin & Hraise).
  apply loop_body_key_error in Hraise.
  rewrite Forall_forall in Hkeys. auto.
Qed.

(** C10: the gate-map lookup is not total on the circuits the required
    predicates accept.  The gate-set predicate lets a [Phase] operation
    through although [Phase] is no key of [_gate]: a circuit holding one
    passes the three required predicates, and its translation stops at
    the lookup [_gate[optype]] with [KeyError]; submitted with
    [valid_check] on, it is accepted by the check and the submission
    raises that [KeyError], whatever the executor. *)
Theorem phase_operation_key_error :
  Forall (fun p => verify p phase_circuit = true) required_predicates /\
  valid_circuit phase_circuit = true /\
  (OpType.Phase ∉ keys _gate) /\
  translate phase_circuit = Raise (KeyError OpType.Phase) /\
  forall (E : External) (n : Z) (w : World),
    fst (@process_circuits E [phase_circuit] (ShotsInt n) true w) =
    Raise (KeyError OpType.Phase).
Proof.
  split; [repeat constructor|]. split; [reflexivity|].
  split; [compute_done|]. split; [reflexivity|].
  intros E n w. reflexivity.
Qed.

(** C5: with the commands up to it well formed, the first measurement
    whose bit is already in the ledger stops the translation with the
    overwrite error, whatever its qubit and whatever follows it; a
    well-formed circuit measuring some bit twice is refused with that
    error, and a circuit whose measured bits are all distinct never
    is. *)
Theorem measurement_overwritten (circ : Circuit) :
  (forall (pre : list Command) (cmd : Command) (rest : list Command),
     get_commands circ = pre ++ cmd :: rest ->
     Forall (well_formed (qubits circ)) (pre ++ [cmd]) ->
     NoDup (measured_bits pre) ->
     ~ NoDup (measured_bits (pre ++ [cmd])) ->
     (exists c, for_each (loop_body (qubits circ)) pre ([], []) =
                Ok (c, measured_bits pre)) /\
     translate circ = Raise MeasurementOverwritten) /\
  (Forall (well_formed (qubits circ)) (get_commands circ) ->
   ~ NoDup (measured_bits (get_commands circ)) ->
   translate circ = Raise MeasurementOverwritten) /\
  (NoDup (measured_bits (get_commands circ)) ->
   translate circ <> Raise MeasurementOverwritten).
Proof.
  split; [|split].
  - intros pre cmd rest Hcmds Hwf Hnd Hdup.
    apply Forall_app in Hwf as [Hpre Hcmd].
    apply Forall_cons in Hcmd as [Hcmd _].
    destruct (for_each_well_formed (qubits circ) pre [] [] Hpre Hnd)
      as (c & Hc).
    cbn [app] in Hc. split; [now exists c|].
    unfold translate. rewrite Hcmds, for_each_app, Hc.
    cbn [Pure.bind for_each].
    destruct (loop_body_well_formed (qubits circ) c (measured_bits pre)
                cmd Hcmd) as [_ Hbad].
    rewrite Hbad; [reflexivity|].
    rewrite measured_bits_app, measured_bits_cons in Hdup.
    unfold measured_bits in Hdup at 2. cbn [map concat] in Hdup.
    now rewrite app_nil_r in Hdup.
  - intros Hwf Hdup. apply for_each_overwritten; [exact Hwf|exact Hdup|].
    constructor.
  - intros Hnd. now apply for_each_not_overwritten.
Qed.

Lemma measurement_overwritten_witness :
  translate remeasured_circuit = Raise MeasurementOverwritten /\
  translate swapped_circuit <> Raise MeasurementOverwritten.
Proof.
  split.
  - destruct (measurement_overwritten remeasured_circuit) as (Hfirst & _ & _).
    apply (Hfirst [mkCommand OpType.H [q_ 0];
                   mkCommand OpType.Measure [q_ 0; c_ 0]]
                  (mkCommand OpType.Measure [q_ 1; c_ 0])
                  [mkCommand OpType.T [q_ 0]]).
    + reflexivity.
    + cbn [app qubits remeasured_circuit]. solve_well_formed.
    + compute_done.
    + intros Hnd. apply (bool_decide_pack _) in Hnd.
      vm_compute in Hnd. exact Hnd.
  - destruct (measurement_overwritten swapped_circuit) as (_ & _ & Hdistinct).
    apply Hdistinct. compute_done.
Defined.
End TranslatorFacts.

(** ** The result assembler *)

Section AssemblerFacts.
Context `{External}.
Import Translator Spec.
Local Open Scope nat_scope.

(** [_process_one_circuit] by cases: translation, the executor call, the
    assembly.  The executor call is logged once translation is through. *)
Lemma process_one_circuit_run (circ : Circuit) (n : Z) (w : World) :
  _process_one_circuit circ (Some n) w =
  match translate circ with
  | Raise e => (Raise e, w)
  | Ok (c, ledger) =>
      let w' := mkWorld (_cache w) (uuids_drawn w)
                        (executor_calls w ++ [(c, Some n)]) in
      match stim_sample (length (executor_calls w)) c (Some n) with
      | Raise e => (Raise e, w')
      | Ok batch =>
          match assemble batch ledger (bits circ) n with
          | Raise e => (Raise e, w')
          | Ok rows =>
              match from_readouts rows with
              | Raise e => (Raise e, w')
              | Ok outcomes => (Ok (mkBackendResult outcomes), w')
              end
          end
      end
  end.
Proof.
  unfold _process_one_circuit, Eff.bind, Eff.lift, Eff.ret, compile_and_sample.
  destruct (translate circ) as [[c ledger]|e]; [|reflexivity].
  cbv zeta. destruct (stim_sample _ _ _) as [batch|e]; [|reflexivity].
  destruct (assemble _ _ _ _) as [rows|e]; [|reflexivity].
  destruct (from_readouts rows); reflexivity.
Qed.

(** The outcome array holds the rows it is built from. *)
Lemma from_readouts_Ok (rows outcomes : list (list bool)) :
  from_readouts rows = Ok outcomes -> outcomes = rows.
Proof. destruct rows; [discriminate|]. now intros [= <-]. Qed.

Lemma from_readouts_rows (rows : list (list bool)) :
  (0 < length rows)%nat -> from_readouts rows = Ok rows.
Proof. destruct rows; [cbn; lia|reflexivity]. Qed.

Lemma batch_get_entry (batch : list (list bool)) (k i : nat) (v : bool) :
  batch_get batch k i = Ok v <-> entry batch k i = Some v.
Proof.
  unfold batch_get, entry.
  destruct (batch !! k) as [row|]; simpl; [|split; discriminate].
  destruct (row !! i); split; congruence.
Qed.

Lemma range_lookup (n : Z) (k : nat) :
  k < Z.to_nat n -> range n !! k = Some k.
Proof. intros Hk. unfold range. now rewrite lookup_seq_lt. Qed.

Lemma range_lookup_inv (n : Z) (k k' : nat) :
  range n !! k = Some k' -> k' = k /\ k < Z.to_nat n.
Proof. unfold range. intros Hk. now apply lookup_seq in Hk. Qed.

Lemma Forall2_iff {A B} (P Q : A -> B -> Prop) (l : list A) (k : list B) :
  (forall x y, P x y <-> Q x y) -> Forall2 P l k <-> Forall2 Q l k.
Proof.
  intros HPQ. split; intros Hf; eapply Forall2_impl; try exact Hf;
    intros x y; apply HPQ.
Qed.

(** What a successful assembly returns, cell by cell. *)
Lemma assemble_Ok (batch : list (list bool)) (ledger bits : list UnitID)
      (n : Z) (rows : list (list bool)) :
  assemble batch ledger bits n = Ok rows <->
  Forall2 (fun k row =>
             Forall2 (fun cb v => exists i, list_index cb ledger = Ok i /\
                                            entry batch k i = Some v)
                     bits row)
          (range n) rows.
Proof.
  unfold assemble. rewrite comprehension_Ok.
  apply Forall2_iff. intros k row. rewrite comprehension_Ok.
  apply Forall2_iff. intros cb v.
  destruct (list_index cb ledger) as [i|e]; cbn [Pure.bind].
  - rewrite batch_get_entry. split; [eauto|].
    now intros (i' & [= <-] & Hv).
  - split; [discriminate|]. now intros (i' & [=] & _).
Qed.

Lemma Forall2_exists_middle {A B D} (P : A -> D -> Prop) (Q : D -> B -> Prop)
      (l : list A) (k : list B) :
  Forall2 (fun x y => exists z, P x z /\ Q z y) l k ->
  exists zs, Forall2 P l zs /\ Forall2 Q zs k.
Proof.
  induction 1 as [|x y l k (z & Hxz & Hzy) _ (zs & Hl & Hk)].
  - exists []. split; constructor.
  - exists (z :: zs). split; constructor; assumption.
Qed.

(** When the declared bits are the ledger in another order, their ledger
    positions are the column indices in another order. *)
Lemma positions_permutation (ledger bits : list UnitID)
      (positions : list nat) :
  NoDup ledger -> bits ≡ₚ ledger ->
  Forall2 (ledger_position ledger) bits positions ->
  positions ≡ₚ seq 0 (length ledger).
Proof.
  intros Hnd Hperm Hpos.
  assert (Hbits : NoDup bits) by now rewrite Hperm.
  apply NoDup_Permutation; [|apply NoDup_seq|].
  - apply NoDup_alt. intros j1 j2 i Hj1 Hj2.
    destruct (Forall2_lookup_r _ _ _ _ _ Hpos Hj1) as (cb1 & Hcb1 & [Hl1 _]).
    destruct (Forall2_lookup_r _ _ _ _ _ Hpos Hj2) as (cb2 & Hcb2 & [Hl2 _]).
    assert (cb1 = cb2) as -> by congruence.
    exact (proj1 (NoDup_alt bits) Hbits j1 j2 cb2 Hcb1 Hcb2).
  - intros i. rewrite elem_of_seq. split.
    + intros Hin. apply list_elem_of_lookup in Hin as [j Hj].
      destruct (Forall2_lookup_r _ _ _ _ _ Hpos Hj) as (cb & _ & [Hl _]).
      apply lookup_lt_Some in Hl. lia.
    + intros [_ Hlt]. simpl in Hlt.
      destruct (lookup_lt_is_Some_2 ledger i Hlt) as [cb Hcb].
      assert (Hin : cb ∈ bits).
      { rewrite Hperm. now apply list_elem_of_lookup_2 in Hcb. }
      apply list_elem_of_lookup in Hin as [j Hj].
      destruct (Forall2_lookup_l _ _ _ _ _ Hpos Hj) as (i' & Hi' & [_ Huniq]).
      rewrite <- (Huniq i Hcb) in Hi'.
      now apply list_elem_of_lookup_2 in Hi'.
Qed.

(** C2: when a Result Record is produced, the ledger is the list of
    measured bits and has no duplicate, the record has one row per
    trial, and its entry in row [k] at the declared position [j] of a
    bit is the raw entry of row [k] at that bit's one ledger position;
    row by row, the record reads the raw row at the ledger positions of
    the declared bits, which are a permutation of the column indices
    when the declared bits are the measured bits in another order. *)
Theorem result_in_declared_order (circ : Circuit) (n : Z) (w w' : World)
        (res : BackendResult) :
  _process_one_circuit circ (Some n) w = (Ok res, w') ->
  exists (c : StimCircuit) (ledger : list UnitID) (batch : list (list bool)),
    translate circ = Ok (c, ledger) /\
    ledger = measured_bits (get_commands circ) /\ NoDup ledger /\
    stim_sample (length (executor_calls w)) c (Some n) = Ok batch /\
    length (shots res) = Z.to_nat n /\
    (forall (k j : nat) (cb : UnitID),
       k < Z.to_nat n -> bits circ !! j = Some cb ->
       exists (i : nat) (v : bool),
         ledger_position ledger cb i /\
         entry batch k i = Some v /\
         entry (shots res) k j = Some v) /\
    (forall (k : nat) (row : list bool),
       shots res !! k = Some row ->
       exists positions : list nat,
         Forall2 (ledger_position ledger) (bits circ) positions /\
         Forall2 (fun i v => entry batch k i = Some v) positions row /\
         (bits circ ≡ₚ ledger -> positions ≡ₚ seq 0 (length ledger))).
Proof.
  rewrite process_one_circuit_run.
  destruct (translate circ) as [[c ledger]|e] eqn:Et; [|discriminate].
  cbv zeta. destruct (stim_sample _ _ _) as [batch|e] eqn:Es; [|discriminate].
  destruct (assemble _ _ _ _) as [rows|e] eqn:Ea; [|discriminate].
  destruct (from_readouts rows) as [outcomes|e] eqn:Eo; [|discriminate].
  apply from_readouts_Ok in Eo as ->.
  intros [= <- _]. cbn [shots].
  apply for_each_ledger in Et as [Hledger Hnd]; [|constructor].
  cbn [app] in Hledger.
  apply assemble_Ok in Ea.
  exists c, ledger, batch.
  split; [reflexivity|]. split; [exact Hledger|]. split; [exact Hnd|].
  split; [exact Es|]. split; [|split].
  - rewrite <- (Forall2_length _ _ _ Ea). unfold range. apply length_seq.
  - intros k j cb Hk Hj.
    destruct (Forall2_lookup_l _ _ _ _ _ Ea (range_lookup n k Hk))
      as (row & Hrow & Hcells).
    destruct (Forall2_lookup_l _ _ _ _ _ Hcells Hj)
      as (v & Hv & i & Hi & Hraw).
    exists i, v. split; [now apply list_index_ledger_position|].
    split; [exact Hraw|]. unfold entry. now rewrite Hrow.
  - intros k row Hrow.
    destruct (Forall2_lookup_r _ _ _ _ _ Ea Hrow) as (k' & Hk' & Hcells).
    apply range_lookup_inv in Hk' as [-> _].
    assert (Hmid : Forall2 (fun cb v =>
              exists i, ledger_position ledger cb i /\
                        entry batch k i = Some v) (bits circ) row).
    { eapply Forall2_impl; [exact Hcells|].
      intros cb v (i & Hi & Hv). exists i.
      split; [now apply list_index_ledger_position|exact Hv]. }
    apply Forall2_exists_middle in Hmid as (positions & Hpos & Hread).
    exists positions. split; [exact Hpos|]. split; [exact Hread|].
    intros Hperm. now apply positions_permutation with (bits := bits circ).
Qed.

Lemma comprehension_total {A B} (f : A -> result B) (l : list A) :
  (forall x, x ∈ l -> exists y, f x = Ok y) ->
  exists ys, comprehension f l = Ok ys.
Proof.
  induction l as [|x l IH]; intros Hall; cbn [comprehension];
    [now eexists|].
  destruct (Hall x) as [y ->]; [apply list_elem_of_here|].
  destruct IH as [ys ->];
    [intros x' Hx'; apply Hall; now apply list_elem_of_further|].
  now eexists.
Qed.

(** If every element evaluates or raises [e], and one raises, the
    comprehension raises [e]. *)
Lemma comprehension_raise_only {A B} (f : A -> result B) (l : list A)
      (e : exn) :
  (forall x, x ∈ l -> (exists y, f x = Ok y) \/ f x = Raise e) ->
  (exists x, x ∈ l /\ f x = Raise e) ->
  comprehension f l = Raise e.
Proof.
  intros Hall (x & Hin & Hx).
  destruct (comprehension f l) as [ys|e'] eqn:E.
  - apply comprehension_Ok in E.
    apply list_elem_of_lookup in Hin as [i Hi].
    destruct (Forall2_lookup_l _ _ _ _ _ E Hi) as (y & _ & Hy). congruence.
  - apply comprehension_raises in E as (x' & Hin' & Hx').
    destruct (Hall x' Hin') as [[y Hy]|He]; congruence.
Qed.

(** With a well-shaped batch, the cell of a measured bit is read. *)
Lemma cell_of_measured_bit (batch : list (list bool)) (ledger : list UnitID)
      (n : Z) (k : nat) (cb : UnitID) :
  well_shaped batch n (length ledger) -> k < Z.to_nat n -> cb ∈ ledger ->
  exists v, Pure.bind (list_index cb ledger)
                      (fun i => batch_get batch k i) = Ok v.
Proof.
  intros [Hrows Hcols] Hk Hin.
  destruct (list_index_elem cb ledger Hin) as [i Hi]. rewrite Hi.
  cbn [Pure.bind]. apply list_index_lookup in Hi as [Hi _].
  apply lookup_lt_Some in Hi.
  destruct (lookup_lt_is_Some_2 batch k) as [row Hrow]; [lia|].
  pose proof (Forall_lookup_1 _ _ _ _ Hcols Hrow) as Hlen. cbn beta in Hlen.
  destruct (lookup_lt_is_Some_2 row i) as [v Hv]; [lia|].
  exists v. unfold batch_get. now rewrite Hrow, Hv.
Qed.

Lemma times_measured_NoDup (cmds : list Command) (bits : list UnitID) :
  Forall (fun cb => cb ∈ bits) (measured_bits cmds) ->
  (forall cb, cb ∈ bits -> times_measured cmds cb = 1) ->
  NoDup (measured_bits cmds).
Proof.
  intros Hdecl Honce. apply NoDup_ListNoDup.
  apply (NoDup_count_occ' UnitID_eq_dec).
  intros cb Hin. apply Honce.
  rewrite Forall_forall in Hdecl. apply Hdecl. now apply list_elem_of_In.
Qed.

(** C8: for a positive shot count and a well-shaped batch from the
    executor, a circuit with a declared bit that no measurement targets
    fails in assembly with the [ValueError] of the ledger lookup, and no
    Result Record is produced; a well-formed circuit whose declared bits
    are each measured exactly once translates, each declared bit has
    exactly one ledger position, and assembly succeeds. *)
Theorem unmapped_output (circ : Circuit) (n : Z) (w : World) :
  (1 <= n)%Z ->
  (forall (c : StimCircuit) (ledger : list UnitID) (batch : list (list bool)),
     translate circ = Ok (c, ledger) ->
     stim_sample (length (executor_calls w)) c (Some n) = Ok batch ->
     well_shaped batch n (length ledger) ->
     (exists cb, cb ∈ bits circ /\
                 times_measured (get_commands circ) cb = 0) ->
     fst (_process_one_circuit circ (Some n) w) = Raise NotInList) /\
  (Forall (well_formed (qubits circ)) (get_commands circ) ->
   Forall (fun cb => cb ∈ bits circ) (measured_bits (get_commands circ)) ->
   (forall cb, cb ∈ bits circ -> times_measured (get_commands circ) cb = 1) ->
   exists c : StimCircuit,
     translate circ = Ok (c, measured_bits (get_commands circ)) /\
     (forall cb, cb ∈ bits circ ->
        exists i, ledger_position (measured_bits (get_commands circ)) cb i) /\
     (forall batch : list (list bool),
        stim_sample (length (executor_calls w)) c (Some n) = Ok batch ->
        well_shaped batch n (length (measured_bits (get_commands circ))) ->
        exists res, fst (_process_one_circuit circ (Some n) w) = Ok res)).
Proof.
  intros Hn. split.
  - intros c ledger batch Ht Hs Hshape (cb & Hdecl & Hnever).
    rewrite process_one_circuit_run, Ht. cbv zeta. rewrite Hs.
    apply for_each_ledger in Ht as [Hledger _]; [|constructor].
    cbn [app] in Hledger.
    assert (Hout : cb ∉ ledger).
    { rewrite Hledger, list_elem_of_In.
      now apply (count_occ_not_In UnitID_eq_dec). }
    assert (Hraise : assemble batch ledger (bits circ) n = Raise NotInList).
    { unfold assemble, range.
      destruct (Z.to_nat n) as [|m] eqn:Em; [lia|]. cbn [seq comprehension].
      rewrite (comprehension_raise_only _ (bits circ) NotInList);
        [reflexivity| |].
      - intros cb' _. destruct (decide (cb' ∈ ledger)) as [Hin|Hnin].
        + left. apply (cell_of_measured_bit batch ledger n); [exact Hshape|lia|exact Hin].
        + right. now rewrite list_index_not_elem.
      - exists cb. split; [exact Hdecl|]. now rewrite list_index_not_elem. }
    now rewrite Hraise.
  - intros Hwf Hdecl Honce.
    pose proof (times_measured_NoDup _ _ Hdecl Honce) as Hnd.
    destruct (for_each_well_formed (qubits circ) (get_commands circ) [] []
                Hwf Hnd) as (c & Hc).
    cbn [app] in Hc. exists c. split; [exact Hc|].
    assert (Hmeasured : forall cb, cb ∈ bits circ ->
                                   cb ∈ measured_bits (get_commands circ)).
    { intros cb Hcb. apply list_elem_of_In.
      apply (count_occ_In UnitID_eq_dec).
      unfold times_measured in Honce. rewrite (Honce cb Hcb). lia. }
    split.
    + intros cb Hcb.
      destruct (list_index_elem cb _ (Hmeasured cb Hcb)) as [i Hi].
      exists i. now apply list_index_ledger_position.
    + intros batch Hs Hshape.
      rewrite process_one_circuit_run. unfold translate. rewrite Hc.
      cbv zeta. rewrite Hs.
      destruct (comprehension_total
                  (fun k => comprehension
                     (fun cb => Pure.bind
                        (list_index cb (measured_bits (get_commands circ)))
                        (fun i => batch_get batch k i)) (bits circ))
                  (range n))
        as [rows Hrows].
      { intros k Hk. apply list_elem_of_lookup in Hk as [k' Hk'].
        apply range_lookup_inv in Hk' as [-> Hk].
        apply comprehension_total. intros cb Hcb.
        apply (cell_of_measured_bit batch _ n); auto. }
      unfold assemble. rewrite Hrows.
      rewrite from_readouts_rows; [now eexists|].
      apply comprehension_Ok, Forall2_length in Hrows.
      rewrite <- Hrows. unfold range. rewrite length_seq. lia.
Qed.
End AssemblerFacts.

Section AssemblerExamples.
Import Translator Spec.

(** The example of the specification: bits declared [c[0], c[1]] and
    measured in the order [c[1]], [c[0]]; the raw row (true, false) is
    returned as (false, true). *)
Lemma result_in_declared_order_witness :
  exists (res : BackendResult) (w' : World),
    @_process_one_circuit (replay_external [[true; false]])
      swapped_circuit (Some 1%Z) empty_world = (Ok res, w') /\
    entry (shots res) 0 0 = Some false /\
    entry (shots res) 0 1 = Some true.
Proof.
  destruct (@_process_one_circuit (replay_external [[true; false]])
              swapped_circuit (Some 1%Z) empty_world) as [r w'] eqn:Erun.
  assert (Hok : exists res, r = Ok res) by (vm_compute in Erun; injection Erun as <- _; now eexists).
  destruct Hok as [res ->]. exists res, w'. split; [reflexivity|].
  destruct (@result_in_declared_order (replay_external [[true; false]])
              swapped_circuit 1%Z empty_world w' res Erun)
    as (c & ledger & batch & _ & -> & _ & Hs & _ & Hcell & _).
  injection Hs as <-.
  split.
  - destruct (Hcell 0%nat 0%nat (c_ 0)) as (i & v & [Hi _] & Hraw & ->);
      [simpl; lia|reflexivity|].
    destruct i as [|[|i]]; try discriminate Hi. now rewrite <- Hraw.
  - destruct (Hcell 0%nat 1%nat (c_ 1)) as (i & v & [Hi _] & Hraw & ->);
      [simpl; lia|reflexivity|].
    destruct i as [|[|i]]; try discriminate Hi. now rewrite <- Hraw.
Defined.

Lemma unmapped_output_witness :
  fst (@_process_one_circuit (replay_external [[true]])
         unmeasured_circuit (Some 1%Z) empty_world) = Raise NotInList /\
  exists res : BackendResult,
    fst (@_process_one_circuit (replay_external [[true; false]])
           swapped_circuit (Some 1%Z) empty_world) = Ok res.
Proof.
  split.
  - destruct (@unmapped_output (replay_external [[true]])
                unmeasured_circuit 1%Z empty_world) as [Hfails _]; [lia|].
    apply (Hfails [("H", [0%nat]); ("M", [0%nat])]%string [c_ 0] [[true]]).
    + reflexivity.
    + reflexivity.
    + split; [reflexivity|repeat constructor].
    + exists (c_ 1). split; [compute_done|reflexivity].
  - destruct (@unmapped_output (replay_external [[true; false]])
                swapped_circuit 1%Z empty_world) as [_ Hruns]; [lia|].
    destruct Hruns as (c & Hc & _ & Hres).
    + cbn [qubits swapped_circuit get_commands]. solve_well_formed.
    + repeat constructor; compute_done.
    + intros cb Hcb. cbn [bits swapped_circuit] in Hcb.
      repeat (apply elem_of_cons in Hcb as [->|Hcb]; [reflexivity|]).
      now apply elem_of_nil in Hcb.
    + apply (Hres [[true; false]]); [reflexivity|].
      split; [reflexivity|repeat constructor].
Defined.
End AssemblerExamples.

(** ** The submission and status session *)

Section SessionFacts.
Context `{External}.
Import Translator Spec.
Local Open Scope nat_scope.

Lemma check_all_circuits_world (i : nat) (circuits : list Circuit) (w : World) :
  snd (_check_all_circuits_from i circuits w) = w.
Proof.
  revert i. induction circuits as [|circ rest IH]; intros i; simpl;
    [reflexivity|].
  destruct (valid_circuit circ); [apply IH|reflexivity].
Qed.

Lemma check_all_circuits_valid (i : nat) (circuits : list Circuit) (w : World) :
  Forall (fun circ => valid_circuit circ = true) circuits ->
  _check_all_circuits_from i circuits w = (Ok tt, w).
Proof.
  intros Hv. revert i. induction Hv as [|circ rest Hc _ IH]; intros i; simpl;
    [reflexivity|].
  rewrite Hc. apply IH.
Qed.

(** Processing a circuit touches neither the cache nor the uuid count,
    and only ever adds to the executor's call log. *)
Lemma process_one_circuit_world (circ : Circuit) (n : option Z) (w : World) :
  let w' := snd (_process_one_circuit circ n w) in
  _cache w' = _cache w /\ uuids_drawn w' = uuids_drawn w /\
  exists calls, executor_calls w' = executor_calls w ++ calls.
Proof.
  unfold _process_one_circuit, Eff.bind, Eff.lift, Eff.ret, Eff.raise,
    compile_and_sample.
  destruct (translate circ) as [[c ledger]|e]; cbn [snd].
  - destruct (stim_sample _ _ _) as [batch|e]; cbn [snd].
    + destruct n as [n|]; [destruct (assemble _ _ _ _) as [rows|];
                        [destruct (from_readouts rows)|]|]; cbn;
        repeat split; eauto.
    + cbn. repeat split; eauto.
  - repeat split. exists []. now rewrite app_nil_r.
Qed.

(** The executor is called with the shot count as given. *)
Lemma process_one_circuit_calls (circ : Circuit) (n : option Z) (w : World)
      (c : StimCircuit) (ledger : list UnitID) :
  translate circ = Ok (c, ledger) ->
  executor_calls (snd (_process_one_circuit circ n w)) =
  executor_calls w ++ [(c, n)].
Proof.
  intros Ht.
  unfold _process_one_circuit, Eff.bind, Eff.lift, Eff.ret, Eff.raise,
    compile_and_sample.
  rewrite Ht. destruct (stim_sample _ _ _) as [batch|e]; [|reflexivity].
  destruct n as [n|]; [destruct (assemble _ _ _ _) as [rows|];
                        [destruct (from_readouts rows)|]|]; reflexivity.
Qed.

Lemma process_one_circuit_untranslated (circ : Circuit) (n : option Z)
      (w : World) (e : exn) :
  translate circ = Raise e ->
  _process_one_circuit circ n w = (Raise e, w).
Proof.
  intros Ht. unfold _process_one_circuit, Eff.bind, Eff.lift.
  now rewrite Ht.
Qed.

(** One turn of the submission loop. *)
Lemma submit_loop_step (circuit : Circuit) (n : option Z)
      (rest : list (Circuit * option Z)) (handle_list : list ResultHandle)
      (w : World) :
  submit_loop ((circuit, n) :: rest) handle_list w =
  let handle := uuid4 (uuids_drawn w) in
  let w1 := mkWorld (_cache w) (Datatypes.S (uuids_drawn w))
                    (executor_calls w) in
  match _process_one_circuit circuit n w1 with
  | (Ok r, w2) =>
      submit_loop rest (handle_list ++ [handle])
        (mkWorld (<[handle := {["result"%string := r]}]> (_cache w2))
                 (uuids_drawn w2) (executor_calls w2))
  | (Raise e, w2) => (Raise e, w2)
  end.
Proof.
  cbn [submit_loop]. unfold Eff.bind, draw_uuid4, cache_store. cbv zeta.
  destruct (_process_one_circuit _ _ _) as [[r|e] w2]; reflexivity.
Qed.

(** Every handle the loop returns keys a Result Record in the cache. *)
Lemma submit_loop_stored (jobs : list (Circuit * option Z))
      (handle_list handles : list ResultHandle) (w w' : World) :
  submit_loop jobs handle_list w = (Ok handles, w') ->
  (forall h, h ∈ handle_list -> exists r, stored w h r) ->
  forall h, h ∈ handles -> exists r, stored w' h r.
Proof.
  revert handle_list w.
  induction jobs as [|[circuit n] rest IH]; intros handle_list w.
  - cbn. unfold Eff.ret. now intros [= <- <-].
  - rewrite submit_loop_step. cbv zeta.
    destruct (_process_one_circuit _ _ _) as [[r|e] w2] eqn:Erun;
      [|discriminate].
    pose proof (process_one_circuit_world circuit n
                  (mkWorld (_cache w) (Datatypes.S (uuids_drawn w))
                           (executor_calls w))) as (Hcache & _ & _).
    rewrite Erun in Hcache. cbn in Hcache.
    intros Hloop Hin. apply (IH _ _ Hloop).
    intros h Hh. unfold stored. cbn [_cache]. rewrite Hcache.
    destruct (decide (h = uuid4 (uuids_drawn w))) as [->|Hne].
    + exists r. apply lookup_insert_eq.
    + apply elem_of_app in Hh as [Hh|Hh].
      * destruct (Hin h Hh) as [r' Hr']. exists r'.
        rewrite lookup_insert_ne by congruence. exact Hr'.
      * apply list_elem_of_singleton in Hh. contradiction.
Qed.

Lemma check_all_circuits_run (circuits : list Circuit) (w : World) :
  _check_all_circuits circuits w =
  (fst (_check_all_circuits circuits w), w).
Proof.
  pose proof (check_all_circuits_world 0 circuits w) as Hw.
  unfold _check_all_circuits in *.
  destruct (_check_all_circuits_from 0 circuits w) as [r w1].
  cbn in *. now subst.
Qed.

(** A submission that returns went through the loop with the shot counts
    spread over the circuits. *)
Lemma process_circuits_submits (circuits : list Circuit) (n_shots : ShotsArg)
      (valid_check : bool) (w w' : World) (handles : list ResultHandle) :
  process_circuits circuits n_shots valid_check w = (Ok handles, w') ->
  exists n_shots_list : list (option Z),
    submit_loop (zip circuits n_shots_list) [] w = (Ok handles, w').
Proof.
  unfold process_circuits, Eff.bind.
  assert (Hcheck : forall k : M (list ResultHandle),
    match (if valid_check then _check_all_circuits circuits
           else Eff.ret tt) w with
    | (Ok a, w1) => k w1
    | (Raise e, w1) => (Raise e, w1)
    end = (Ok handles, w') -> k w = (Ok handles, w')).
  { intros k. destruct valid_check; [|now cbn].
    rewrite check_all_circuits_run.
    now destruct (fst (_check_all_circuits circuits w)). }
  destruct n_shots as [|n|l].
  - cbn. intros Hrun. apply Hcheck in Hrun. eauto.
  - cbn. intros Hrun. apply Hcheck in Hrun. eauto.
  - destruct (decide (length l ≠ length circuits)); [discriminate|].
    cbn. intros Hrun. apply Hcheck in Hrun. eauto.
Qed.

Lemma process_circuits_stored (circuits : list Circuit) (n_shots : ShotsArg)
      (valid_check : bool) (w w' : World) (handles : list ResultHandle) :
  process_circuits circuits n_shots valid_check w = (Ok handles, w') ->
  forall h, h ∈ handles -> exists r, stored w' h r.
Proof.
  intros Hrun. apply process_circuits_submits in Hrun as [n_shots_list Hloop].
  apply (submit_loop_stored _ _ _ _ _ Hloop).
  intros h Hh. now apply elem_of_nil in Hh.
Qed.

(** C6: a per-circuit shot-count list of the wrong length is refused
    with the length-mismatch error and the world is as it was: no uuid
    drawn, the cache unchanged, the executor not called. *)
Theorem shot_count_mismatch (circuits : list Circuit) (l : list Z)
        (valid_check : bool) (w : World) :
  length l ≠ length circuits ->
  process_circuits circuits (ShotsSeq l) valid_check w =
    (Raise ShotCountMismatch, w) /\
  let w' := snd (process_circuits circuits (ShotsSeq l) valid_check w) in
  uuids_drawn w' = uuids_drawn w /\ _cache w' = _cache w /\
  executor_calls w' = executor_calls w.
Proof.
  intros Hlen.
  assert (Hrun : process_circuits circuits (ShotsSeq l) valid_check w =
                 (Raise ShotCountMismatch, w)).
  { unfold process_circuits, Eff.bind, Eff.raise.
    now rewrite decide_True by exact Hlen. }
  split; [exact Hrun|]. now rewrite Hrun.
Qed.

(** C7: [circuit_status] answers [COMPLETED] exactly for the handles in
    the cache and raises [CircuitNotRunError] for the others; it has no
    other answer, leaves the world as it is, so that asking again gives
    the same answer and the same cached record; every handle a
    submission returned is in the cache with its Result Record. *)
Theorem circuit_status_correct (handle : ResultHandle) (w : World) :
  (is_Some (_cache w !! handle) ->
   circuit_status handle w = (Ok (mkCircuitStatus COMPLETED), w)) /\
  (_cache w !! handle = None ->
   circuit_status handle w = (Raise (CircuitNotRunError handle), w)) /\
  (forall (st : CircuitStatus) (w' : World),
     circuit_status handle w = (Ok st, w') ->
     status st = COMPLETED /\ is_Some (_cache w !! handle)) /\
  (forall (r : result CircuitStatus) (w' : World),
     circuit_status handle w = (r, w') ->
     w' = w /\ circuit_status handle w' = (r, w') /\
     _cache w' !! handle = _cache w !! handle) /\
  (forall (circuits : list Circuit) (n_shots : ShotsArg) (valid_check : bool)
          (w0 : World) (handles : list ResultHandle),
     process_circuits circuits n_shots valid_check w0 = (Ok handles, w) ->
     handle ∈ handles ->
     circuit_status handle w = (Ok (mkCircuitStatus COMPLETED), w) /\
     exists r, stored w handle r).
Proof.
  assert (Hin : is_Some (_cache w !! handle) ->
                circuit_status handle w = (Ok (mkCircuitStatus COMPLETED), w)).
  { intros Hs. unfold circuit_status. now rewrite decide_True. }
  assert (Hout : _cache w !! handle = None ->
                 circuit_status handle w =
                 (Raise (CircuitNotRunError handle), w)).
  { intros Hn. unfold circuit_status. rewrite decide_False; [reflexivity|].
    rewrite Hn. now intros [? ?]. }
  split; [exact Hin|]. split; [exact Hout|]. split; [|split].
  - intros st w'. unfold circuit_status.
    destruct (decide _) as [Hs|Hn]; [|discriminate].
    now intros [= <- _].
  - intros r w'. unfold circuit_status at 1.
    destruct (decide _) as [Hs|Hn]; intros [= <- <-].
    + now rewrite Hin.
    + split; [reflexivity|]. split; [|reflexivity].
      unfold circuit_status. now rewrite decide_False.
  - intros circuits n_shots valid_check w0 handles Hrun Hh.
    destruct (process_circuits_stored _ _ _ _ _ _ Hrun handle Hh) as [r Hr].
    split; [|now exists r]. apply Hin. unfold stored in Hr. now rewrite Hr.
Qed.

Lemma submit_loop_extends (jobs : list (Circuit * option Z))
      (handle_list : list ResultHandle) (w : World) :
  exists calls,
    executor_calls (snd (submit_loop jobs handle_list w)) =
    executor_calls w ++ calls.
Proof.
  revert handle_list w.
  induction jobs as [|[circuit n] rest IH]; intros handle_list w.
  - exists []. cbn. now rewrite app_nil_r.
  - rewrite submit_loop_step. cbv zeta.
    pose proof (process_one_circuit_world circuit n
                  (mkWorld (_cache w) (Datatypes.S (uuids_drawn w))
                           (executor_calls w))) as (_ & _ & calls & Hcalls).
    destruct (_process_one_circuit _ _ _) as [[r|e] w2]; cbn in Hcalls.
    + destruct (IH (handle_list ++ [uuid4 (uuids_drawn w)])
                  (mkWorld (<[uuid4 (uuids_drawn w) :=
                                {["result"%string := r]}]> (_cache w2))
                           (uuids_drawn w2) (executor_calls w2)))
        as [calls' Hcalls'].
      exists (calls ++ calls'). rewrite Hcalls'. cbn [executor_calls].
      now rewrite Hcalls, app_assoc.
    + now exists calls.
Qed.

(** C9, as the code has it: the shot count is not validated.  A circuit
    that translates has the executor called with the count as given,
    whatever its sign; the only error before the call is translation's,
    which does not depend on the count; and a submission with one count
    for all circuits calls the executor for its first circuit with that
    count. *)
Theorem shot_count_not_validated (circ : Circuit) (n : Z) (w : World) :
  (forall (c : StimCircuit) (ledger : list UnitID),
     translate circ = Ok (c, ledger) ->
     executor_calls (snd (_process_one_circuit circ (Some n) w)) =
     executor_calls w ++ [(c, Some n)]) /\
  (forall e : exn,
     translate circ = Raise e ->
     forall n' : Z, _process_one_circuit circ (Some n') w = (Raise e, w)) /\
  (forall (rest : list Circuit) (valid_check : bool)
          (c : StimCircuit) (ledger : list UnitID),
     translate circ = Ok (c, ledger) ->
     Forall (fun circ => valid_circuit circ = true) (circ :: rest) ->
     exists calls,
       executor_calls
         (snd (process_circuits (circ :: rest) (ShotsInt n) valid_check w)) =
       executor_calls w ++ (c, Some n) :: calls).
Proof.
  split; [|split].
  - intros c ledger Ht. now apply process_one_circuit_calls with ledger.
  - intros e Ht n'. now apply process_one_circuit_untranslated.
  - intros rest valid_check c ledger Ht Hvalid.
    unfold process_circuits, Eff.bind, Eff.ret.
    assert (Hcheck :
      (if valid_check then _check_all_circuits (circ :: rest)
       else fun w => (Ok tt, w)) w = (Ok tt, w)).
    { destruct valid_check; [|reflexivity].
      now apply check_all_circuits_valid. }
    rewrite Hcheck. cbn [length replicate zip zip_with].
    rewrite submit_loop_step. cbv zeta.
    pose proof (process_one_circuit_calls circ (Some n)
                  (mkWorld (_cache w) (Datatypes.S (uuids_drawn w))
                           (executor_calls w)) c ledger Ht) as Hcalls.
    destruct (_process_one_circuit _ _ _) as [[r|e] w2]; cbn in Hcalls.
    + match goal with
      | |- context [submit_loop ?jobs ?hl ?w3] =>
          destruct (submit_loop_extends jobs hl w3) as [calls' Hcalls']
      end.
      exists calls'. rewrite Hcalls'. cbn [executor_calls].
      now rewrite Hcalls, <- app_assoc.
    + now exists [].
Qed.
End SessionFacts.

Section SessionExamples.
Import Translator Spec.

(** Three circuits with two shot counts. *)
Lemma shot_count_mismatch_witness :
  @process_circuits example_external
    [measure_circuit; swapped_circuit; measure_circuit]
    (ShotsSeq [10; 10]%Z) true empty_world =
  (Raise ShotCountMismatch, empty_world).
Proof.
  apply (@shot_count_mismatch example_external). simpl. lia.
Defined.

Lemma circuit_status_correct_witness :
  exists (handles : list ResultHandle) (w : World),
    @process_circuits example_external [measure_circuit; swapped_circuit]
      (ShotsInt 2) true empty_world = (Ok handles, w) /\
    Forall (fun h => circuit_status h w = (Ok (mkCircuitStatus COMPLETED), w))
           handles /\
    circuit_status "never-submitted" w =
      (Raise (CircuitNotRunError "never-submitted"), w).
Proof.
  destruct (@process_circuits example_external
              [measure_circuit; swapped_circuit] (ShotsInt 2) true
              empty_world) as [r w] eqn:Erun.
  pose proof Erun as Eval. vm_compute in Eval.
  destruct r as [handles|e]; [|discriminate Eval].
  exists handles, w. split; [reflexivity|]. split.
  - apply Forall_forall. intros h Hh.
    destruct (@circuit_status_correct example_external h w)
      as (_ & _ & _ & _ & Hsubmitted).
    now destruct (Hsubmitted _ _ _ _ _ Erun Hh).
  - destruct (@circuit_status_correct example_external "never-submitted" w)
      as (_ & Hunknown & _).
    apply Hunknown. injection Eval as _ <-. reflexivity.
Defined.

Lemma shot_count_not_validated_witness :
  executor_calls
    (snd (@_process_one_circuit example_external measure_circuit
            (Some (-3)%Z) empty_world)) =
    [([("M", [0%nat])]%string, Some (-3)%Z)] /\
  exists calls,
    executor_calls
      (snd (@process_circuits example_external
              [measure_circuit; swapped_circuit] (ShotsInt 0) true
              empty_world)) =
    ([("M", [0%nat])]%string, Some 0%Z) :: calls.
Proof.
  split.
  - now apply (@shot_count_not_validated example_external measure_circuit
                 (-3)%Z empty_world) with [c_ 0].
  - destruct (@shot_count_not_validated example_external measure_circuit
                0%Z empty_world) as (_ & _ & Hsubmit).
    apply (Hsubmit [swapped_circuit] true _ [c_ 0]); [reflexivity|].
    repeat constructor.
Defined.

(** C9 as stated fails: a submission with shot count zero, or with a
    negative one, meets no validation before the executor; whatever the
    executor is, it is called with that count. *)
Lemma zero_shots_reach_executor :
  (forall E : External,
     executor_calls
       (snd (@process_circuits E [measure_circuit] (ShotsInt 0) true
               empty_world)) =
     [([("M", [0%nat])]%string, Some 0%Z)]) /\
  (forall E : External,
     executor_calls
       (snd (@process_circuits E [measure_circuit] (ShotsSeq [(-3)%Z]) true
               empty_world)) =
     [([("M", [0%nat])]%string, Some (-3)%Z)]).
Proof.
  assert (Hcalls : forall (E : External) (n : Z) (arg : ShotsArg),
    arg = ShotsInt n \/ arg = ShotsSeq [n] ->
    executor_calls
      (snd (@process_circuits E [measure_circuit] arg true empty_world)) =
    [([("M", [0%nat])]%string, Some n)]).
  { intros E n arg Harg.
    assert (Hrun : @process_circuits E [measure_circuit] arg true empty_world =
                   @submit_loop E [(measure_circuit, Some n)] [] empty_world)
      by (destruct Harg as [-> | ->]; reflexivity).
    rewrite Hrun, (@submit_loop_step E). cbv zeta.
    pose proof (@process_one_circuit_calls E measure_circuit (Some n)
                  (mkWorld (_cache empty_world)
                           (Datatypes.S (uuids_drawn empty_world))
                           (executor_calls empty_world))
                  [("M", [0%nat])]%string [c_ 0] eq_refl) as Hc.
    destruct (@_process_one_circuit E _ _ _) as [[r|e] w2]; exact Hc. }
  split; intros E; apply Hcalls; [now left|now right].
Qed.
End SessionExamples.


(** ** More on the translator: the instruction stream *)

Section LoweringFacts.
Import Translator Spec Props.
Local Open Scope nat_scope.

Lemma list_index_resolves (qubits : list UnitID) (arg : UnitID) (t : nat) :
  list_index arg qubits = Ok t -> resolves qubits arg t.
Proof. apply list_index_lookup. Qed.

(** A successful iteration appends the lowering of its command. *)
(** Appending an instruction adds it at the end, or adds its targets to
    those of a last instruction of the same name. *)
Lemma append_operation_cases (c : StimCircuit) (name : string)
      (targets : list nat) :
  append_operation c name targets = c ++ [(name, targets)] \/
  exists c0 targets0,
    c = c0 ++ [(name, targets0)] /\
    append_operation c name targets = c0 ++ [(name, targets0 ++ targets)].
Proof.
  induction c as [|ins c IH]; [now left|].
  destruct c as [|ins' c].
  - cbn. destruct ins as [name0 targets0]. cbn.
    destruct (decide (name0 = name)) as [->|Hne]; [|now left].
    right. now exists [], targets0.
  - change (append_operation (ins :: ins' :: c) name targets)
      with (ins :: append_operation (ins' :: c) name targets).
    destruct IH as [->|(c0 & targets0 & -> & ->)]; [now left|].
    right. now exists (ins :: c0), targets0.
Qed.

Lemma append_operation_targets (c : StimCircuit) (name : string)
      (targets : list nat) :
  all_targets (append_operation c name targets) = all_targets c ++ targets.
Proof.
  unfold all_targets.
  destruct (append_operation_cases c name targets)
    as [->|(c0 & targets0 & -> & ->)];
    rewrite !map_app, !concat_app; cbn; rewrite ?app_nil_r;
    now rewrite ?app_assoc.
Qed.

Lemma append_operation_length (c : StimCircuit) (name : string)
      (targets : list nat) :
  length (append_operation c name targets) <= Datatypes.S (length c).
Proof.
  destruct (append_operation_cases c name targets)
    as [->|(c0 & targets0 & -> & ->)]; rewrite !length_app; cbn; lia.
Qed.

(** A property of names and targets that the instructions of [c] and the
    new instruction have still holds after the append. *)
Lemma append_operation_Forall (N : string -> Prop) (T : nat -> Prop)
      (c : StimCircuit) (name : string) (targets : list nat) :
  Forall (fun ins => N (fst ins) /\ Forall T (snd ins)) c ->
  N name -> Forall T targets ->
  Forall (fun ins => N (fst ins) /\ Forall T (snd ins))
         (append_operation c name targets).
Proof.
  intros Hc Hname Htargets.
  destruct (append_operation_cases c name targets)
    as [->|(c0 & targets0 & -> & ->)].
  - apply Forall_app. split; [exact Hc|]. now repeat constructor.
  - apply Forall_app in Hc as [Hc0 Hlast].
    apply Forall_cons in Hlast as [[_ Hlast] _]. cbn in Hlast.
    apply Forall_app. split; [exact Hc0|].
    repeat constructor; cbn; [exact Hname|].
    apply Forall_app. now split.
Qed.

(** A successful iteration appends the lowering of its command. *)
Lemma loop_body_lowers (qubits : list UnitID) (c c' : StimCircuit)
      (rb rb' : list UnitID) (cmd : Command) :
  loop_body qubits (c, rb) cmd = Ok (c', rb') ->
  exists ins, c' = append_operation c (fst ins) (snd ins) /\
              lowers qubits cmd ins.
Proof.
  unfold loop_body, lowers, qubit_operands.
  destruct (decide (op cmd = OpType.Measure)) as [Hm|Hm].
  - destruct (args cmd) as [|qb [|cb [|? ?]]]; cbn [Pure.bind snd];
      try discriminate.
    destruct (is_Qubit qb); cbn [Pure.bind snd]; [|discriminate].
    destruct (list_index qb qubits) as [i|e] eqn:Ei; cbn [Pure.bind snd];
      [|discriminate].
    destruct (decide (length _ ≠ _)); [discriminate|].
    intros [= <- _]. exists ("M"%string, [i]). split; [reflexivity|].
    rewrite Hm. split; [reflexivity|].
    cbn. constructor; [now apply list_index_resolves|constructor].
  - destruct (comprehension _ _) as [qbs|e] eqn:Eq; cbn [Pure.bind snd];
      [|discriminate].
    destruct (dict_get _gate (op cmd)) as [name|e] eqn:Eg;
      cbn [Pure.bind snd]; [|discriminate].
    destruct (decide (length _ ≠ _)); [discriminate|].
    intros [= <- _]. exists (name, qbs). split; [reflexivity|].
    split; [reflexivity|]. cbn [snd].
    apply comprehension_Ok in Eq.
    eapply Forall2_impl; [exact Eq|].
    intros arg t. apply list_index_resolves.
Qed.

Lemma for_each_lowers (qubits : list UnitID) (cmds : list Command)
      (c0 c : StimCircuit) (rb0 rb : list UnitID) :
  for_each (loop_body qubits) cmds (c0, rb0) = Ok (c, rb) ->
  exists inss, c = append_all c0 inss /\ Forall2 (lowers qubits) cmds inss.
Proof.
  revert c0 rb0. induction cmds as [|cmd cmds IH]; intros c0 rb0;
    cbn [for_each].
  - intros [= <- _]. exists []. split; constructor.
  - destruct (loop_body qubits (c0, rb0) cmd) as [[c1 rb1]|e] eqn:E;
      cbn [Pure.bind]; [|discriminate].
    apply loop_body_lowers in E as (ins & -> & Hins).
    intros Hrest. apply IH in Hrest as (inss & -> & Hinss).
    exists (ins :: inss). split; [reflexivity|]. now constructor.
Qed.

Lemma append_all_targets (c : StimCircuit) (inss : list (string * list nat)) :
  all_targets (append_all c inss) = all_targets c ++ all_targets inss.
Proof.
  revert c. induction inss as [|ins inss IH]; intros c.
  - cbn. now rewrite app_nil_r.
  - unfold append_all. cbn [foldl].
    fold (append_all (append_operation c (fst ins) (snd ins)) inss).
    rewrite IH, append_operation_targets, <- app_assoc. reflexivity.
Qed.

Lemma append_all_length (c : StimCircuit) (inss : list (string * list nat)) :
  length (append_all c inss) <= length c + length inss.
Proof.
  revert c. induction inss as [|ins inss IH]; intros c; [cbn; lia|].
  unfold append_all. cbn [foldl].
  fold (append_all (append_operation c (fst ins) (snd ins)) inss).
  pose proof (IH (append_operation c (fst ins) (snd ins))).
  pose proof (append_operation_length c (fst ins) (snd ins)).
  cbn [length]. lia.
Qed.

(** X1: a translation that succeeds is a structure-preserving lowering:
    each command gives one instruction, named by the gate map and
    targeting the positions of its qubit operands in [circ.qubits], and
    the Stim circuit is what appending these instructions in command
    order gives.  Stim fuses neighbours of one name, so the circuit
    has at most one instruction per command, and its targets, read in
    order, are exactly those of the commands in order. *)
Theorem translate_lowers (circ : Circuit) (c : StimCircuit)
        (ledger : list UnitID) :
  translate circ = Ok (c, ledger) ->
  exists inss : list (string * list nat),
    Forall2 (lowers (qubits circ)) (get_commands circ) inss /\
    c = append_all [] inss /\
    all_targets c = all_targets inss /\
    length c <= length (get_commands circ).
Proof.
  intros Ht. unfold translate in Ht.
  apply for_each_lowers in Ht as (inss & -> & Hinss).
  exists inss. split; [exact Hinss|]. split; [reflexivity|].
  split; [apply append_all_targets|].
  rewrite (Forall2_length _ _ _ Hinss). apply (append_all_length []).
Qed.

(** X2: the translator never emits a qubit index outside the circuit:
    every target of every instruction is a position of [circ.qubits]. *)
Theorem translate_targets_in_range (circ : Circuit) (c : StimCircuit)
        (ledger : list UnitID) :
  translate circ = Ok (c, ledger) ->
  forall (name : string) (targets : list nat) (t : nat),
    (name, targets) ∈ c -> t ∈ targets -> t < length (qubits circ).
Proof.
  intros Ht name targets t Hins Ht'. unfold translate in Ht.
  apply for_each_lowers in Ht as (inss & -> & Hinss).
  assert (Hall : t ∈ all_targets (append_all [] inss)).
  { unfold all_targets. apply list_elem_of_In, in_concat.
    exists targets. split; [|now apply list_elem_of_In].
    apply list_elem_of_In in Hins.
    exact (in_map snd _ _ Hins). }
  rewrite append_all_targets in Hall. cbn [all_targets map concat app] in Hall.
  unfold all_targets in Hall.
  apply list_elem_of_In, in_concat in Hall as (targets' & Hin' & Ht'').
  apply in_map_iff in Hin' as ([name' ts] & <- & Hin').
  apply list_elem_of_In, list_elem_of_lookup in Hin' as [i Hi].
  destruct (Forall2_lookup_r _ _ _ _ _ Hinss Hi) as (cmd & _ & _ & Htargets).
  cbn [snd] in Htargets, Ht''.
  apply list_elem_of_In, list_elem_of_lookup in Ht'' as [j Hj].
  destruct (Forall2_lookup_r _ _ _ _ _ Htargets Hj) as (arg & _ & Harg & _).
  now apply lookup_lt_Some in Harg.
Qed.

Lemma gate_name_M (t : OpType.t) :
  dict_get _gate t = Ok "M"%string -> t = OpType.Measure.
Proof. destruct t; vm_compute; congruence. Qed.

Lemma count_measurements_app (c1 c2 : StimCircuit) :
  count_measurements (c1 ++ c2) =
  count_measurements c1 + count_measurements c2.
Proof.
  unfold count_measurements.
  now rewrite filter_app, map_app, concat_app, length_app.
Qed.

Lemma count_measurements_one (name : string) (targets : list nat) :
  count_measurements [(name, targets)] =
  if decide (name = "M"%string) then length targets else 0.
Proof.
  unfold count_measurements. rewrite filter_cons, filter_nil. cbn [fst].
  destruct (decide (name = "M"%string)); cbn; [|reflexivity].
  now rewrite app_nil_r.
Qed.

Lemma count_measurements_append (c : StimCircuit) (name : string)
      (targets : list nat) :
  count_measurements (append_operation c name targets) =
  count_measurements c +
  (if decide (name = "M"%string) then length targets else 0).
Proof.
  destruct (append_operation_cases c name targets)
    as [->|(c0 & targets0 & -> & ->)];
    rewrite !count_measurements_app, !count_measurements_one;
    destruct (decide (name = "M"%string)); rewrite ?length_app; lia.
Qed.

Lemma loop_body_counts (qubits : list UnitID) (c c' : StimCircuit)
      (rb rb' : list UnitID) (cmd : Command) :
  loop_body qubits (c, rb) cmd = Ok (c', rb') ->
  count_measurements c' + length rb = count_measurements c + length rb'.
Proof.
  unfold loop_body.
  destruct (decide (op cmd = OpType.Measure)) as [Hm|Hm].
  - destruct (args cmd) as [|qb [|cb [|? ?]]]; cbn [Pure.bind snd];
      try discriminate.
    destruct (is_Qubit qb); cbn [Pure.bind snd]; [|discriminate].
    destruct (list_index qb qubits) as [i|e]; cbn [Pure.bind snd];
      [|discriminate].
    destruct (decide (length _ ≠ _)); [discriminate|].
    intros [= <- <-].
    rewrite count_measurements_append, length_app.
    rewrite decide_True by reflexivity. cbn [length]. lia.
  - destruct (comprehension _ _) as [qbs|e]; cbn [Pure.bind snd];
      [|discriminate].
    destruct (dict_get _gate (op cmd)) as [name|e] eqn:Eg;
      cbn [Pure.bind snd]; [|discriminate].
    destruct (decide (length _ ≠ _)); [discriminate|].
    intros [= <- <-].
    rewrite count_measurements_append.
    rewrite decide_False; [lia|].
    intros ->. now apply gate_name_M in Eg.
Qed.

(** X3: the [M] instructions of the Stim circuit of a successful
    translation hold, in total, exactly one target per ledger entry
    (fused or not), so the executor returns one outcome column per
    ledger position. *)
Theorem translate_measurement_count (circ : Circuit) (c : StimCircuit)
        (ledger : list UnitID) :
  translate circ = Ok (c, ledger) ->
  count_measurements c = length ledger.
Proof.
  unfold translate.
  assert (Hinv : forall cmds c0 rb0,
    for_each (loop_body (qubits circ)) cmds (c0, rb0) = Ok (c, ledger) ->
    count_measurements c + length rb0 = count_measurements c0 + length ledger).
  { induction cmds as [|cmd cmds IH]; intros c0 rb0; cbn [for_each].
    - now intros [= <- <-].
    - destruct (loop_body (qubits circ) (c0, rb0) cmd) as [[c1 rb1]|e] eqn:E;
        cbn [Pure.bind]; [|discriminate].
      apply loop_body_counts in E. intros Hrest. apply IH in Hrest. lia. }
  intros Ht. apply Hinv in Ht. cbn in Ht. lia.
Qed.

(** X4: translation is append-only: if a circuit with further commands
    appended translates, the circuit itself translates; the longer Stim
    circuit is the shorter one with the instructions of the appended
    commands appended to it (the first of them fused into its last
    instruction when the names agree), and the longer ledger is the
    shorter one followed by the bits the appended commands measure. *)
Theorem translate_append (circ : Circuit) (extra : list Command)
        (c' : StimCircuit) (ledger' : list UnitID) :
  translate (append_commands circ extra) = Ok (c', ledger') ->
  exists (c : StimCircuit) (inss : list (string * list nat))
         (ledger : list UnitID),
    translate circ = Ok (c, ledger) /\
    Forall2 (lowers (qubits circ)) extra inss /\
    c' = append_all c inss /\
    all_targets c' = all_targets c ++ all_targets inss /\
    ledger' = ledger ++ measured_bits extra.
Proof.
  unfold translate, append_commands. cbn [qubits get_commands].
  rewrite for_each_app.
  destruct (for_each (loop_body (qubits circ)) (get_commands circ) ([], []))
    as [[c ledger]|e] eqn:Ecirc; cbn [Pure.bind]; [|discriminate].
  intros Hextra. pose proof Hextra as Hlow.
  apply for_each_lowers in Hlow as (inss & -> & Hinss).
  apply for_each_ledger in Ecirc as [_ Hnd]; [|constructor].
  apply for_each_ledger in Hextra as [-> _]; [|exact Hnd].
  exists c, inss, ledger. split; [reflexivity|]. split; [exact Hinss|].
  split; [reflexivity|]. split; [apply append_all_targets|reflexivity].
Qed.

Lemma for_each_raises_at {A St} (body : St -> A -> result St) (l : list A)
      (st : St) (e : exn) :
  for_each body l st = Raise e ->
  exists pre x rest st',
    l = pre ++ x :: rest /\ for_each body pre st = Ok st' /\
    body st' x = Raise e.
Proof.
  revert st. induction l as [|x l IH]; intros st; cbn [for_each];
    [discriminate|].
  destruct (body st x) as [st1|e'] eqn:E; cbn [Pure.bind].
  - intros Hrest.
    destruct (IH _ Hrest) as (pre & y & rest & st' & -> & Hpre & Hy).
    exists (x :: pre), y, rest, st'. split; [reflexivity|].
    split; [|exact Hy]. cbn [for_each]. now rewrite E.
  - intros [= <-]. now exists [], x, l, st.
Qed.

(** X5: the overwrite error has one cause: translation raises it only
    at a measurement whose bit an earlier measurement already
    targeted; no other command trips the duplicate test that runs
    after every command. *)
Theorem overwritten_only_at_remeasurement (circ : Circuit) :
  translate circ = Raise MeasurementOverwritten ->
  exists (pre : list Command) (qb cb : UnitID) (rest : list Command),
    get_commands circ = pre ++ mkCommand OpType.Measure [qb; cb] :: rest /\
    NoDup (measured_bits pre) /\ cb ∈ measured_bits pre.
Proof.
  unfold translate. intros Ht.
  apply for_each_raises_at in Ht
    as (pre & cmd & rest & [c rb] & Hcmds & Hpre & Hraise).
  apply for_each_ledger in Hpre as [Hrb Hnd]; [|constructor].
  cbn [app] in Hrb. subst rb.
  apply loop_body_overwritten in Hraise.
  unfold measured_bit in Hraise.
  destruct cmd as [t operands]. cbn [op args] in Hraise.
  destruct (decide (t = OpType.Measure)) as [->|Hm];
    [|now rewrite app_nil_r in Hraise].
  destruct operands as [|qb [|cb [|? ?]]];
    try (now rewrite app_nil_r in Hraise).
  exists pre, qb, cb, rest. split; [exact Hcmds|]. split; [exact Hnd|].
  destruct (decide (cb ∈ measured_bits pre)) as [Hin|Hout]; [exact Hin|].
  exfalso. apply Hraise. apply NoDup_app. split; [exact Hnd|].
  split; [|apply NoDup_singleton].
  intros x Hx Hx'. apply list_elem_of_singleton in Hx'. now subst.
Qed.

(** X6: errors of a command that cannot be lowered, the commands before it
    being well formed with distinct measured bits: an operand that is
    not a qubit of the circuit raises the [ValueError] of
    [qubits.index], before the gate map is consulted; with all operands
    resolved, a gate type missing from the gate map raises [KeyError]
    with that gate type. *)
Theorem translate_unsupported (circ : Circuit) (pre : list Command)
        (cmd : Command) (rest : list Command) :
  get_commands circ = pre ++ cmd :: rest ->
  Forall (well_formed (qubits circ)) pre ->
  NoDup (measured_bits pre) ->
  op cmd ≠ OpType.Measure ->
  (~ Forall (fun arg => arg ∈ qubits circ) (args cmd) ->
   translate circ = Raise NotInList) /\
  (Forall (fun arg => arg ∈ qubits circ) (args cmd) ->
   op cmd ∉ keys _gate ->
   translate circ = Raise (KeyError (op cmd))).
Proof.
  intros Hcmds Hwf Hnd Hm.
  destruct (for_each_well_formed (qubits circ) pre [] [] Hwf Hnd)
    as (c & Hc).
  assert (Hstep : forall e,
    loop_body (qubits circ) (c, [] ++ measured_bits pre) cmd = Raise e ->
    translate circ = Raise e).
  { intros e He. unfold translate.
    rewrite Hcmds, for_each_app, Hc. cbn [Pure.bind for_each].
    now rewrite He. }
  split.
  - intros Hargs. apply Hstep. unfold loop_body.
    rewrite decide_False by exact Hm.
    destruct (comprehension _ _) as [qbs|e] eqn:Eq; cbn [Pure.bind].
    + exfalso. apply Hargs. apply comprehension_Ok in Eq.
      apply Forall_lookup. intros i arg Hi.
      destruct (Forall2_lookup_l _ _ _ _ _ Eq Hi) as (t & _ & Ht).
      apply list_index_lookup in Ht as [Ht _].
      now apply list_elem_of_lookup_2 in Ht.
    + apply comprehension_raises in Eq as (arg & _ & Harg).
      now apply list_index_raises in Harg as [-> _].
  - intros Hargs Hkey. apply Hstep. unfold loop_body.
    rewrite decide_False by exact Hm.
    destruct (comprehension_total (fun arg => list_index arg (qubits circ))
                (args cmd)) as [qbs ->].
    { intros arg Harg. apply list_index_elem.
      rewrite Forall_forall in Hargs. now apply Hargs. }
    cbn [Pure.bind].
    destruct (dict_get _gate (op cmd)) as [name|e] eqn:Eg.
    + exfalso. apply Hkey. apply dict_get_key. now exists name.
    + now apply dict_get_raises in Eg as [-> _].
Qed.

Lemma translate_lowers_witness :
  exists inss : list (string * list nat),
    Forall2 (lowers (qubits double_measure_circuit))
            (get_commands double_measure_circuit) inss /\
    [("M"%string, [0; 1])] = append_all [] inss /\
    all_targets [("M"%string, [0; 1])] = all_targets inss /\
    length [("M"%string, [0; 1])] <=
      length (get_commands double_measure_circuit).
Proof.
  exact (translate_lowers double_measure_circuit [("M"%string, [0; 1])]
           [c_ 0; c_ 1] eq_refl).
Defined.

Lemma translate_targets_in_range_witness :
  1 < length (qubits swapped_circuit).
Proof.
  apply (translate_targets_in_range swapped_circuit
           [("H", [0]); ("M", [0]); ("CX", [0; 1]); ("M", [1])]%string
           [c_ 1; c_ 0] eq_refl "CX"%string [0; 1] 1); compute_done.
Defined.

Lemma translate_measurement_count_witness :
  count_measurements [("M"%string, [0; 1])] = length [c_ 0; c_ 1].
Proof.
  exact (translate_measurement_count double_measure_circuit _ _ eq_refl).
Defined.

(** Appending a second measurement: Stim fuses it into the first. *)
Lemma translate_append_witness :
  exists (c : StimCircuit) (inss : list (string * list nat))
         (ledger : list UnitID),
    translate first_measure_circuit = Ok (c, ledger) /\
    Forall2 (lowers (qubits first_measure_circuit))
            [mkCommand OpType.Measure [q_ 1; c_ 1]] inss /\
    [("M"%string, [0; 1])] = append_all c inss /\
    all_targets [("M"%string, [0; 1])] =
      all_targets c ++ all_targets inss /\
    [c_ 0; c_ 1] =
      ledger ++ measured_bits [mkCommand OpType.Measure [q_ 1; c_ 1]].
Proof.
  exact (translate_append first_measure_circuit
           [mkCommand OpType.Measure [q_ 1; c_ 1]] _ _ eq_refl).
Defined.

Lemma overwritten_only_at_remeasurement_witness :
  exists (pre : list Command) (qb cb : UnitID) (rest : list Command),
    get_commands remeasured_circuit =
      pre ++ mkCommand OpType.Measure [qb; cb] :: rest /\
    NoDup (measured_bits pre) /\ cb ∈ measured_bits pre.
Proof.
  exact (overwritten_only_at_remeasurement remeasured_circuit eq_refl).
Defined.

Lemma translate_unsupported_witness :
  translate barrier_circuit = Raise (KeyError OpType.Barrier) /\
  translate (mkCircuit [q_ 0] [] [mkCommand OpType.Barrier [q_ 1]] 0) =
    Raise NotInList.
Proof.
  split.
  - destruct (translate_unsupported barrier_circuit
                [mkCommand OpType.H [q_ 0]]
                (mkCommand OpType.Barrier [q_ 0])
                [mkCommand OpType.Measure [q_ 0; c_ 0]]) as [_ Hkey].
    + reflexivity.
    + cbn [qubits barrier_circuit]. solve_well_formed.
    + compute_done.
    + discriminate.
    + apply Hkey; [repeat constructor; compute_done|compute_done].
  - destruct (translate_unsupported
                (mkCircuit [q_ 0] [] [mkCommand OpType.Barrier [q_ 1]] 0)
                [] (mkCommand OpType.Barrier [q_ 1]) []) as [Hindex _].
    + reflexivity.
    + constructor.
    + compute_done.
    + discriminate.
    + apply Hindex. intros Hall. apply Forall_cons in Hall as [Hin _].
      cbn in Hin. apply (bool_decide_pack _) in Hin.
      vm_compute in Hin. exact Hin.
Defined.
End LoweringFacts.

(** ** More on the session: what a submission leaves behind *)

Section SubmissionFacts.
Context `{External}.
Import Translator Spec Props.
Local Open Scope nat_scope.

(** X7: every row of a Result Record has one entry per declared bit. *)
Theorem result_row_width (circ : Circuit) (n : Z) (w w' : World)
        (res : BackendResult) :
  _process_one_circuit circ (Some n) w = (Ok res, w') ->
  Forall (fun row => length row = length (bits circ)) (shots res).
Proof.
  rewrite process_one_circuit_run.
  destruct (translate circ) as [[c ledger]|e]; [|discriminate].
  cbv zeta. destruct (stim_sample _ _ _) as [batch|e]; [|discriminate].
  destruct (assemble _ _ _ _) as [rows|e] eqn:Ea; [|discriminate].
  destruct (from_readouts rows) as [outcomes|e] eqn:Eo; [|discriminate].
  apply from_readouts_Ok in Eo as ->.
  intros [= <- _]. cbn [shots]. apply assemble_Ok in Ea.
  apply Forall_lookup. intros k row Hrow.
  destruct (Forall2_lookup_r _ _ _ _ _ Ea Hrow) as (k' & _ & Hcells).
  symmetry. exact (Forall2_length _ _ _ Hcells).
Qed.

(** A successful run of one circuit, and the world it leaves. *)
Lemma process_one_circuit_Ok (circ : Circuit) (n_shots : option Z)
      (w w' : World) (res : BackendResult) :
  _process_one_circuit circ n_shots w = (Ok res, w') ->
  exists c : StimCircuit,
    job_result (length (executor_calls w)) circ n_shots c res /\
    w' = mkWorld (_cache w) (uuids_drawn w)
                 (executor_calls w ++ [(c, n_shots)]).
Proof.
  unfold _process_one_circuit, Eff.bind, Eff.lift, Eff.ret, Eff.raise,
    compile_and_sample, job_result.
  destruct (translate circ) as [[c ledger]|e]; [|discriminate].
  destruct (stim_sample _ _ _) as [batch|e] eqn:Es; [|discriminate].
  destruct n_shots as [n|]; [|discriminate].
  destruct (assemble _ _ _ _) as [rows|e] eqn:Ea; [|discriminate].
  destruct (from_readouts rows) as [outcomes|e] eqn:Eo; [|discriminate].
  apply from_readouts_Ok in Eo as ->.
  intros [= <- <-]. exists c. split; [|reflexivity].
  now exists ledger, batch, n.
Qed.

(** The world a successful submission loop leaves. *)
Lemma submit_loop_Ok (jobs : list (Circuit * option Z))
      (handle_list handles : list ResultHandle) (w w' : World) :
  submit_loop jobs handle_list w = (Ok handles, w') ->
  exists (cs : list StimCircuit) (rs : list BackendResult),
    length cs = length jobs /\ length rs = length jobs /\
    handles = handle_list ++
              (uuid4 <$> seq (uuids_drawn w) (length jobs)) /\
    _cache w' =
      store_results (_cache w)
        (zip ((uuid4 <$> seq (uuids_drawn w) (length jobs))) rs) /\
    uuids_drawn w' = uuids_drawn w + length jobs /\
    executor_calls w' = executor_calls w ++ zip cs (snd <$> jobs) /\
    forall i circ n c res,
      jobs !! i = Some (circ, n) -> cs !! i = Some c -> rs !! i = Some res ->
      job_result (length (executor_calls w) + i) circ n c res.
Proof.
  revert handle_list w.
  induction jobs as [|[circuit n] rest IH]; intros handle_list w.
  - cbn. unfold Eff.ret. intros [= <- <-]. exists [], [].
    rewrite !app_nil_r. repeat split; try reflexivity; try lia.
    intros i ? ? ? ? Hi. discriminate.
  - rewrite submit_loop_step. cbv zeta.
    destruct (_process_one_circuit _ _ _) as [[r|e] w2] eqn:Erun;
      [|discriminate].
    apply process_one_circuit_Ok in Erun as (c & Hjob & ->).
    cbn [_cache uuids_drawn executor_calls] in *.
    intros Hloop.
    apply IH in Hloop as (cs & rs & Hcs & Hrs & -> & Hcache & Huuid & Hcalls
                          & Hjobs).
    cbn [_cache uuids_drawn executor_calls] in *.
    exists (c :: cs), (r :: rs). cbn [length seq fmap list_fmap zip zip_with].
    split; [now rewrite Hcs|]. split; [now rewrite Hrs|].
    split; [now rewrite <- app_assoc|].
    split; [exact Hcache|]. split; [lia|].
    split; [now rewrite Hcalls, <- app_assoc|].
    intros [|i] circ' n' c' res'; cbn.
    + intros [= <- <-] [= <-] [= <-]. now rewrite Nat.add_0_r.
    + intros Hi Hc Hr. specialize (Hjobs i _ _ _ _ Hi Hc Hr).
      rewrite length_app in Hjobs. cbn in Hjobs.
      now replace (length (executor_calls w) + Datatypes.S i)
        with (length (executor_calls w) + 1 + i) by lia.
Qed.

Lemma shots_per_circuit_length (circuits : list Circuit) (n_shots : ShotsArg) :
  (forall l, n_shots = ShotsSeq l -> length l = length circuits) ->
  length (shots_per_circuit circuits n_shots) = length circuits.
Proof.
  intros Hl. destruct n_shots as [|n|l]; cbn.
  - apply length_replicate.
  - apply length_replicate.
  - rewrite length_map. now apply Hl.
Qed.

(** A submission either stops before the loop, leaving the world as it
    was, or is the loop over the circuits paired with their shot
    counts. *)
Lemma process_circuits_cases (circuits : list Circuit) (n_shots : ShotsArg)
      (valid_check : bool) (w : World) :
  (exists e, process_circuits circuits n_shots valid_check w = (Raise e, w)) \/
  (process_circuits circuits n_shots valid_check w =
     submit_loop (zip circuits (shots_per_circuit circuits n_shots)) [] w /\
   length (shots_per_circuit circuits n_shots) = length circuits).
Proof.
  unfold process_circuits, Eff.bind.
  assert (Hcheck : forall k : M (list ResultHandle),
    (exists e,
       match (if valid_check then _check_all_circuits circuits
              else Eff.ret tt) w with
       | (Ok a, w1) => k w1
       | (Raise e, w1) => (Raise e, w1)
       end = (Raise e, w)) \/
    match (if valid_check then _check_all_circuits circuits
           else Eff.ret tt) w with
    | (Ok a, w1) => k w1
    | (Raise e, w1) => (Raise e, w1)
    end = k w).
  { intros k. destruct valid_check; [|now right].
    rewrite check_all_circuits_run.
    destruct (fst (_check_all_circuits circuits w)) as [[]|e];
      [now right|left; now exists e]. }
  destruct n_shots as [|n|l].
  - cbn. destruct (Hcheck (submit_loop (zip circuits
                     (replicate (length circuits) None)) [])) as [He|Hk].
    + now left.
    + right. split; [exact Hk|apply length_replicate].
  - cbn. destruct (Hcheck (submit_loop (zip circuits
                     (replicate (length circuits) (Some n))) []))
      as [He|Hk].
    + now left.
    + right. split; [exact Hk|apply length_replicate].
  - destruct (decide (length l ≠ length circuits)) as [Hne|Heq].
    + left. now exists ShotCountMismatch.
    + cbn. destruct (Hcheck (submit_loop (zip circuits (map Some l)) []))
        as [He|Hk].
      * now left.
      * right. split; [exact Hk|]. rewrite length_map.
        destruct (decide (length l = length circuits)); tauto.
Qed.

(** X8: the books of a submission that returns: one handle per
    circuit, in submission order, the next uuids in the order drawn;
    every circuit translated and the executor called once per circuit,
    in order, with that circuit's Stim circuit and its own shot
    count. *)
Theorem submission_bookkeeping (circuits : list Circuit) (n_shots : ShotsArg)
        (valid_check : bool) (w w' : World) (handles : list ResultHandle) :
  process_circuits circuits n_shots valid_check w = (Ok handles, w') ->
  handles = (uuid4 <$> seq (uuids_drawn w) (length circuits)) /\
  length handles = length circuits /\
  uuids_drawn w' = uuids_drawn w + length circuits /\
  exists cs : list StimCircuit,
    Forall2 (fun circ c => exists ledger, translate circ = Ok (c, ledger))
            circuits cs /\
    executor_calls w' =
      executor_calls w ++ zip cs (shots_per_circuit circuits n_shots).
Proof.
  intros Hrun.
  destruct (process_circuits_cases circuits n_shots valid_check w)
    as [[e He]|[Hloop Hlen]]; [congruence|].
  rewrite Hloop in Hrun.
  apply submit_loop_Ok in Hrun
    as (cs & rs & Hcs & Hrs & -> & _ & Huuid & Hcalls & Hjobs).
  assert (Hjobs_len : length (zip circuits
                                (shots_per_circuit circuits n_shots)) =
                      length circuits)
    by (rewrite length_zip; lia).
  rewrite Hjobs_len in *. cbn [app].
  split; [reflexivity|].
  split; [now rewrite length_fmap, length_seq|].
  split; [exact Huuid|].
  exists cs. split.
  - apply Forall2_same_length_lookup_2; [congruence|].
    intros i circ c Hcirc Hc.
    destruct (lookup_lt_is_Some_2 (shots_per_circuit circuits n_shots) i)
      as [n Hn]; [apply lookup_lt_Some in Hcirc; lia|].
    destruct (lookup_lt_is_Some_2 rs i) as [res Hres];
      [apply lookup_lt_Some in Hcirc; lia|].
    assert (Hjob : zip circuits (shots_per_circuit circuits n_shots) !! i =
                   Some (circ, n)) by now apply lookup_zip_Some.
    destruct (Hjobs i circ n c res Hjob Hc Hres) as (ledger & _ & _ & _ & Ht & _).
    now exists ledger.
  - rewrite Hcalls, snd_zip by lia. reflexivity.
Qed.

Lemma store_results_other
      (cache : gmap ResultHandle (gmap string BackendResult))
      (entries : list (ResultHandle * BackendResult)) (h : ResultHandle) :
  h ∉ entries.*1 -> store_results cache entries !! h = cache !! h.
Proof.
  revert cache. induction entries as [|[h' r'] entries IH]; intros cache Hh;
    [reflexivity|].
  unfold store_results. cbn [foldl fst snd].
  cbn in Hh. apply not_elem_of_cons in Hh as [Hne Hh].
  fold (store_results (<[h' := {["result"%string := r']}]> cache) entries).
  rewrite IH by exact Hh. now apply lookup_insert_ne.
Qed.

(** Among distinct handles, each keys the record stored with it. *)
Lemma store_results_lookup
      (cache : gmap ResultHandle (gmap string BackendResult))
      (hs : list ResultHandle) (rs : list BackendResult) (i : nat)
      (h : ResultHandle) (r : BackendResult) :
  NoDup hs -> length hs = length rs ->
  hs !! i = Some h -> rs !! i = Some r ->
  store_results cache (zip hs rs) !! h = Some {["result"%string := r]}.
Proof.
  intros Hnd. revert cache rs i.
  induction Hnd as [|h0 hs Hh0 Hnd IH]; intros cache [|r0 rs] i Hlen;
    try discriminate.
  destruct i as [|i]; cbn.
  - intros [= ->] [= ->].
    fold (store_results (<[h := {["result"%string := r]}]> cache) (zip hs rs)).
    rewrite store_results_other; [apply lookup_insert_eq|].
    rewrite fst_zip; [exact Hh0|]. cbn in Hlen. lia.
  - intros Hh Hr.
    fold (store_results (<[h0 := {["result"%string := r0]}]> cache)
                        (zip hs rs)).
    apply (IH _ _ i); [cbn in Hlen; lia|exact Hh|exact Hr].
Qed.

(** X9: when the handles of a returned submission are pairwise distinct,
    the handle of the [i]-th circuit keys, in the cache, the record of
    that very circuit: its own translation, sampled by the executor's
    call for it with its own shot count, and assembled in declared-bit
    order. *)
Theorem handle_keys_own_result (circuits : list Circuit) (n_shots : ShotsArg)
        (valid_check : bool) (w w' : World) (handles : list ResultHandle) :
  process_circuits circuits n_shots valid_check w = (Ok handles, w') ->
  NoDup handles ->
  forall (i : nat) (circ : Circuit) (h : ResultHandle),
    circuits !! i = Some circ -> handles !! i = Some h ->
    exists (n : option Z) (c : StimCircuit) (res : BackendResult),
      shots_per_circuit circuits n_shots !! i = Some n /\
      stored w' h res /\
      job_result (length (executor_calls w) + i) circ n c res.
Proof.
  intros Hrun Hnd i circ h Hcirc Hh.
  destruct (process_circuits_cases circuits n_shots valid_check w)
    as [[e He]|[Hloop Hlen]]; [congruence|].
  rewrite Hloop in Hrun.
  apply submit_loop_Ok in Hrun
    as (cs & rs & Hcs & Hrs & -> & Hcache & _ & _ & Hjobs).
  assert (Hjobs_len : length (zip circuits
                                (shots_per_circuit circuits n_shots)) =
                      length circuits)
    by (rewrite length_zip; lia).
  rewrite Hjobs_len in *. cbn [app] in *.
  pose proof (lookup_lt_Some _ _ _ Hcirc) as Hi.
  destruct (lookup_lt_is_Some_2 (shots_per_circuit circuits n_shots) i)
    as [n Hn]; [lia|].
  destruct (lookup_lt_is_Some_2 rs i) as [res Hres]; [lia|].
  destruct (lookup_lt_is_Some_2 cs i) as [c Hc]; [lia|].
  exists n, c, res. split; [exact Hn|]. split.
  - unfold stored. rewrite Hcache.
    apply (store_results_lookup _ _ _ i); try assumption.
    now rewrite length_fmap, length_seq.
  - apply Hjobs; try assumption. now apply lookup_zip_Some.
Qed.

(** One circuit adds at most one call to the executor's log. *)
Lemma process_one_circuit_one_call (circ : Circuit) (n : option Z) (w : World) :
  exists calls,
    executor_calls (snd (_process_one_circuit circ n w)) =
      executor_calls w ++ calls /\
    length calls <= 1.
Proof.
  unfold _process_one_circuit, Eff.bind, Eff.lift, Eff.ret, Eff.raise,
    compile_and_sample.
  destruct (translate circ) as [[c ledger]|e]; cbn [snd].
  - exists [(c, n)]. split; [|cbn; lia].
    destruct (stim_sample _ _ _) as [batch|e]; [|reflexivity].
    destruct n as [n|]; [destruct (assemble _ _ _ _) as [rows|];
                        [destruct (from_readouts rows)|]|]; reflexivity.
  - exists []. split; [now rewrite app_nil_r|cbn; lia].
Qed.

Lemma submit_loop_append_only (jobs : list (Circuit * option Z))
      (handle_list : list ResultHandle) (w : World) :
  let w' := snd (submit_loop jobs handle_list w) in
  (forall h, is_Some (_cache w !! h) -> is_Some (_cache w' !! h)) /\
  uuids_drawn w <= uuids_drawn w' <= uuids_drawn w + length jobs /\
  exists calls,
    executor_calls w' = executor_calls w ++ calls /\
    length calls <= length jobs.
Proof.
  revert handle_list w.
  induction jobs as [|[circuit n] rest IH]; intros handle_list w.
  - cbn. split; [auto|]. split; [lia|]. exists [].
    split; [now rewrite app_nil_r|cbn; lia].
  - rewrite submit_loop_step. cbv zeta.
    pose proof (process_one_circuit_world circuit n
                  (mkWorld (_cache w) (Datatypes.S (uuids_drawn w))
                           (executor_calls w))) as (Hcache & Huuid & _).
    pose proof (process_one_circuit_one_call circuit n
                  (mkWorld (_cache w) (Datatypes.S (uuids_drawn w))
                           (executor_calls w))) as (calls & Hcalls & Hone).
    destruct (_process_one_circuit _ _ _) as [[r|e] w2];
      cbn [snd _cache uuids_drawn executor_calls length] in *.
    + match goal with
      | |- context [submit_loop rest ?hl ?w3] =>
          specialize (IH hl w3); cbv zeta in IH;
          destruct (submit_loop rest hl w3) as [res w3'];
          destruct IH as (IHcache & IHuuid & calls' & IHcalls & IHlen)
      end.
      cbn [snd _cache uuids_drawn executor_calls] in *.
      split; [|split].
      * intros h Hh. apply IHcache. rewrite Hcache.
        destruct (decide (h = uuid4 (uuids_drawn w))) as [->|Hne].
        -- rewrite lookup_insert_eq. now eexists.
        -- now rewrite lookup_insert_ne by congruence.
      * lia.
      * exists (calls ++ calls'). rewrite IHcalls, Hcalls, app_assoc.
        split; [reflexivity|]. rewrite length_app. lia.
    + split; [intros h Hh; now rewrite Hcache|]. split; [lia|].
      exists calls. split; [exact Hcalls|lia].
Qed.

(** X10: whatever its outcome, a submission is append-only: no handle
    leaves the cache, at most one uuid is drawn and at most one executor
    call is logged per circuit, and the calls logged before remain. *)
Theorem submission_append_only (circuits : list Circuit) (n_shots : ShotsArg)
        (valid_check : bool) (w : World) :
  let w' := snd (process_circuits circuits n_shots valid_check w) in
  (forall h, is_Some (_cache w !! h) -> is_Some (_cache w' !! h)) /\
  uuids_drawn w <= uuids_drawn w' <= uuids_drawn w + length circuits /\
  exists calls,
    executor_calls w' = executor_calls w ++ calls /\
    length calls <= length circuits.
Proof.
  destruct (process_circuits_cases circuits n_shots valid_check w)
    as [[e He]|[Hloop Hlen]].
  - rewrite He. cbn. split; [auto|]. split; [lia|].
    exists []. split; [now rewrite app_nil_r|cbn; lia].
  - rewrite Hloop.
    pose proof (submit_loop_append_only
                  (zip circuits (shots_per_circuit circuits n_shots)) [] w)
      as Hloop'.
    rewrite length_zip, Hlen, Nat.min_id in Hloop'. exact Hloop'.
Qed.

Lemma submit_loop_app (jobs1 jobs2 : list (Circuit * option Z))
      (handle_list : list ResultHandle) (w : World) :
  submit_loop (jobs1 ++ jobs2) handle_list w =
  match submit_loop jobs1 handle_list w with
  | (Ok handles, w1) => submit_loop jobs2 handles w1
  | (Raise e, w1) => (Raise e, w1)
  end.
Proof.
  revert handle_list w.
  induction jobs1 as [|[circuit n] rest IH]; intros handle_list w;
    [reflexivity|].
  rewrite <- app_comm_cons, !submit_loop_step. cbv zeta.
  destruct (_process_one_circuit _ _ _) as [[r|e] w2]; [apply IH|reflexivity].
Qed.

Lemma zip_replicate_app (before after : list Circuit) (circ : Circuit)
      (n : option Z) :
  zip (before ++ circ :: after)
      (replicate (length (before ++ circ :: after)) n) =
  zip before (replicate (length before) n) ++
  (circ, n) :: zip after (replicate (length after) n).
Proof.
  induction before as [|c0 before IH]; cbn; [reflexivity|].
  f_equal. exact IH.
Qed.

(** X11: a submission is not all-or-nothing.  When the circuits before
    [circ] run (as they do submitted alone) and [circ] then raises, the
    submission raises that exception and returns no handle, one more
    uuid is drawn, the circuits after [circ] are not run, and the
    records of the circuits before it remain in the cache. *)
Theorem failed_submission_keeps_results
        (before : list Circuit) (circ : Circuit) (after : list Circuit)
        (n : Z) (valid_check : bool) (w w1 : World)
        (handles : list ResultHandle) (e : exn) :
  (valid_check = true ->
   Forall (fun circ => valid_circuit circ = true) (before ++ circ :: after)) ->
  process_circuits before (ShotsInt n) false w = (Ok handles, w1) ->
  fst (_process_one_circuit circ (Some n) (after_uuid w1)) = Raise e ->
  process_circuits (before ++ circ :: after) (ShotsInt n) valid_check w =
    (Raise e, snd (_process_one_circuit circ (Some n) (after_uuid w1))) /\
  let w' := snd (process_circuits (before ++ circ :: after) (ShotsInt n)
                                  valid_check w) in
  _cache w' = _cache w1 /\
  uuids_drawn w' = Datatypes.S (uuids_drawn w1) /\
  forall h, h ∈ handles -> exists r, stored w' h r.
Proof.
  intros Hvalid Hbefore Hraise.
  assert (Hrun :
    process_circuits (before ++ circ :: after) (ShotsInt n) valid_check w =
    (Raise e, snd (_process_one_circuit circ (Some n) (after_uuid w1)))).
  { unfold process_circuits, Eff.bind, Eff.ret in *.
    assert (Hcheck :
      (if valid_check then _check_all_circuits (before ++ circ :: after)
       else fun w => (Ok tt, w)) w = (Ok tt, w)).
    { destruct valid_check; [|reflexivity].
      now apply check_all_circuits_valid, Hvalid. }
    rewrite Hcheck, zip_replicate_app, submit_loop_app, Hbefore.
    rewrite submit_loop_step. cbv zeta. fold (after_uuid w1).
    destruct (_process_one_circuit circ (Some n) (after_uuid w1))
      as [[r|e'] w2]; cbn in Hraise; [discriminate|].
    now injection Hraise as ->. }
  split; [exact Hrun|]. rewrite Hrun. cbn [snd].
  pose proof (process_one_circuit_world circ (Some n) (after_uuid w1))
    as (Hcache & Huuid & _).
  split; [exact Hcache|]. split; [exact Huuid|].
  intros h Hh.
  destruct (process_circuits_stored _ _ _ _ _ _ Hbefore h Hh) as [r Hr].
  exists r. unfold stored in *. now rewrite Hcache.
Qed.

Lemma process_one_circuit_None (circ : Circuit) (w : World) :
  exists e, fst (_process_one_circuit circ None w) = Raise e.
Proof.
  unfold _process_one_circuit, Eff.bind, Eff.lift, Eff.raise,
    compile_and_sample.
  destruct (translate circ) as [[c ledger]|e]; [|now eexists].
  destruct (stim_sample _ _ _) as [batch|e]; now eexists.
Qed.

(** X12: the default [n_shots=None] cannot be used: a submission with
    no shot count returns handles only when it has no circuit. *)
Theorem submission_needs_shots (circuits : list Circuit)
        (valid_check : bool) (w : World) :
  (exists handles,
     fst (process_circuits circuits ShotsNone valid_check w) = Ok handles) <->
  circuits = [].
Proof.
  split.
  - intros [handles Hrun]. destruct circuits as [|circ rest]; [reflexivity|].
    exfalso.
    destruct (process_circuits_cases (circ :: rest) ShotsNone valid_check w)
      as [[e He]|[Hloop _]].
    + rewrite He in Hrun. discriminate.
    + rewrite Hloop in Hrun. cbn [shots_per_circuit length replicate zip
                                  zip_with] in Hrun.
      rewrite submit_loop_step in Hrun. cbv zeta in Hrun.
      destruct (process_one_circuit_None circ
                  (mkWorld (_cache w) (Datatypes.S (uuids_drawn w))
                           (executor_calls w))) as [e He].
      destruct (_process_one_circuit _ _ _) as [[r|e'] w2];
        cbn in He, Hrun; discriminate.
  - intros ->. exists []. unfold process_circuits, Eff.bind. cbn.
    destruct valid_check; reflexivity.
Qed.
End SubmissionFacts.

Section SubmissionExamples.
Import Translator Spec Props.
Local Open Scope nat_scope.

Lemma result_row_width_witness :
  exists (res : BackendResult) (w' : World),
    @_process_one_circuit (replay_external [[true; false]; [false; false]])
      swapped_circuit (Some 2%Z) empty_world = (Ok res, w') /\
    Forall (fun row => length row = 2) (shots res).
Proof.
  destruct (@_process_one_circuit
              (replay_external [[true; false]; [false; false]])
              swapped_circuit (Some 2%Z) empty_world) as [r w'] eqn:Erun.
  assert (Hok : exists res, r = Ok res)
    by (vm_compute in Erun; injection Erun as <- _; now eexists).
  destruct Hok as [res ->]. exists res, w'. split; [reflexivity|].
  exact (@result_row_width _ swapped_circuit 2%Z empty_world w' res Erun).
Defined.

Lemma submission_bookkeeping_witness :
  exists (handles : list ResultHandle) (w' : World),
    @process_circuits example_external [measure_circuit; swapped_circuit]
      (ShotsSeq [2; 3]%Z) true empty_world = (Ok handles, w') /\
    handles = [numbered_handle 0; numbered_handle 1] /\
    uuids_drawn w' = 2.
Proof.
  destruct (@process_circuits example_external
              [measure_circuit; swapped_circuit] (ShotsSeq [2; 3]%Z) true
              empty_world) as [r w'] eqn:Erun.
  assert (Hok : exists handles, r = Ok handles)
    by (vm_compute in Erun; injection Erun as <- _; now eexists).
  destruct Hok as [handles ->]. exists handles, w'. split; [reflexivity|].
  destruct (@submission_bookkeeping example_external _ _ _ _ _ _ Erun)
    as (Hh & _ & Hu & _).
  split; [exact Hh|exact Hu].
Defined.

Lemma handle_keys_own_result_witness :
  exists (w' : World) (n : option Z) (c : StimCircuit) (res : BackendResult),
    stored w' (numbered_handle 1) res /\
    @job_result example_external 1 swapped_circuit n c res.
Proof.
  destruct (@process_circuits example_external
              [measure_circuit; swapped_circuit] (ShotsSeq [2; 3]%Z) true
              empty_world) as [r w'] eqn:Erun.
  assert (Hok : r = Ok [numbered_handle 0; numbered_handle 1])
    by (vm_compute in Erun; now injection Erun as <- _).
  subst r.
  destruct (@handle_keys_own_result example_external _ _ _ _ _ _ Erun)
    with (i := 1) (circ := swapped_circuit) (h := numbered_handle 1)
    as (n & c & res & _ & Hstored & Hjob);
    [compute_done|reflexivity|reflexivity|].
  now exists w', n, c, res.
Defined.

Lemma submission_append_only_witness :
  is_Some
    (_cache (snd (@process_circuits example_external [measure_circuit]
                    (ShotsInt 2) true used_world)) !! "earlier"%string).
Proof.
  apply (@submission_append_only example_external [measure_circuit]
           (ShotsInt 2) true used_world).
  now eexists.
Defined.

Lemma failed_submission_keeps_results_witness :
  fst (@process_circuits example_external
         [measure_circuit; overwriting_circuit; swapped_circuit]
         (ShotsInt 2) true empty_world) = Raise MeasurementOverwritten /\
  exists r,
    stored (snd (@process_circuits example_external
                   [measure_circuit; overwriting_circuit; swapped_circuit]
                   (ShotsInt 2) true empty_world))
           (numbered_handle 0) r.
Proof.
  destruct (@process_circuits example_external [measure_circuit]
              (ShotsInt 2) false empty_world) as [r w1] eqn:Ebefore.
  assert (Hok : r = Ok [numbered_handle 0])
    by (vm_compute in Ebefore; now injection Ebefore as <- _).
  subst r.
  destruct (@failed_submission_keeps_results example_external
              [measure_circuit] overwriting_circuit [swapped_circuit]
              2%Z true empty_world w1 [numbered_handle 0]
              MeasurementOverwritten) as (Hrun & _ & _ & Hstored).
  - intros _. repeat constructor.
  - exact Ebefore.
  - reflexivity.
  - cbn [app] in Hrun, Hstored. split; [now rewrite Hrun|].
    apply Hstored. compute_done.
Defined.

Lemma submission_needs_shots_witness :
  exists handles,
    fst (@process_circuits example_external [] ShotsNone true empty_world) =
    Ok handles.
Proof. now apply (@submission_needs_shots example_external). Defined.
End SubmissionExamples.

(** ** More on the decomposer and the gate map *)

Section RebaseFacts.
Import Decomposer Rebase Translator Spec Props.

Lemma int_double_half (n : Z) : _int_double (n # 2) = Ok (n mod 8)%Z.
Proof.
  assert (Hn : (2 * (n # 2) == inject_Z n)%Q) by (unfold Qeq; simpl; lia).
  rewrite int_double_accepts
    by (apply half_integer_within_tolerance; now exists n).
  now rewrite (np_round_integer _ _ Hn).
Qed.

(** X13: every exact multiple of 0.5 is accepted, with the residue of
    its double modulo 8, and four half-turns more change nothing:
    [_int_double] returns the same residue and [_tk1_to_cliff] builds
    the same circuit. *)
Theorem int_double_period (n_a n_b n_c k_a k_b k_c : Z) :
  _int_double (n_a # 2) = Ok (n_a mod 8)%Z /\
  _int_double ((n_a + 8 * k_a) # 2) = _int_double (n_a # 2) /\
  _tk1_to_cliff ((n_a + 8 * k_a) # 2) ((n_b + 8 * k_b) # 2)
                ((n_c + 8 * k_c) # 2) =
  _tk1_to_cliff (n_a # 2) (n_b # 2) (n_c # 2).
Proof.
  assert (Hperiod : forall n k,
            _int_double ((n + 8 * k) # 2) = _int_double (n # 2)).
  { intros n k. rewrite !int_double_half. f_equal.
    rewrite (Z.mul_comm 8 k). apply Z_mod_plus_full. }
  split; [apply int_double_half|]. split; [apply Hperiod|].
  unfold _tk1_to_cliff. now rewrite !Hperiod.
Qed.

(** X14: the gate map is one-to-one: its fifteen keys are distinct and
    no two gate types share a Stim instruction name, so the name of an
    emitted instruction tells the gate type it came from. *)
Theorem gate_names_distinct :
  NoDup (keys _gate) /\ length (keys _gate) = 15%nat /\
  forall (t1 t2 : OpType.t) (name : string),
    dict_get _gate t1 = Ok name -> dict_get _gate t2 = Ok name -> t1 = t2.
Proof.
  split; [compute_done|]. split; [reflexivity|].
  intros t1 t2 name H1 H2.
  destruct t1; try discriminate H1; vm_compute in H1; injection H1 as <-;
    destruct t2; try discriminate H2; reflexivity.
Qed.

Lemma np_round_half_odd (k : Z) :
  np_round (2 * ((2 * k + 1) # 4)) = if Z.even k then k else (k + 1)%Z.
Proof.
  assert (Hy : (2 * ((2 * k + 1) # 4) == inject_Z k + (1 # 2))%Q).
  { unfold Qeq, Qmult, Qplus, inject_Z. cbn [Qnum Qden]. lia. }
  assert (Hf : Qfloor (2 * ((2 * k + 1) # 4)) = k).
  { rewrite (Qfloor_comp _ _ Hy).
    pose proof (Qfloor_le (inject_Z k + (1 # 2))) as Hlo.
    pose proof (Qlt_floor (inject_Z k + (1 # 2))) as Hhi.
    set (f := Qfloor (inject_Z k + (1 # 2))) in *.
    assert (Hlo' : (inject_Z f < inject_Z (k + 1))%Q).
    { eapply Qle_lt_trans; [exact Hlo|].
      unfold Qlt, Qplus, inject_Z. cbn [Qnum Qden]. lia. }
    assert (Hhi' : (inject_Z k < inject_Z (f + 1))%Q).
    { eapply Qle_lt_trans; [|exact Hhi].
      unfold Qle, Qplus, inject_Z. cbn [Qnum Qden]. lia. }
    rewrite <- Zlt_Qlt in Hlo', Hhi'. lia. }
  unfold np_round. rewrite Hf.
  assert (Hd : (2 * ((2 * k + 1) # 4) - inject_Z k == 1 # 2)%Q)
    by (rewrite Hy; ring).
  apply Qeq_alt in Hd. unfold Qcompare in *. now rewrite Hd.
Qed.

(** X15: the angles halfway between two multiples of 0.5, the odd
    multiples of 0.25 (a T gate is one), are refused as non-Clifford
    exactly for [k] from -49999 to 49998 in [x = (2k+1)/4]; beyond
    that range the relative tolerance accepts them. *)
Theorem quarter_odd_angles (k : Z) :
  _int_double ((2 * k + 1) # 4) = Raise NonCliffordAngle <->
  (-49999 <= k <= 49998)%Z.
Proof.
  unfold _int_double. rewrite np_round_half_odd.
  set (n := if Z.even k then k else (k + 1)%Z).
  assert (Hn : (n = k /\ Z.even k = true) \/
               (n = (k + 1)%Z /\ Z.even k = false))
    by (unfold n; destruct (Z.even k); auto).
  assert (Hclose : np_isclose (2 * ((2 * k + 1) # 4)) (inject_Z n) = true <->
                   (50000 <= Z.abs n)%Z).
  { rewrite np_isclose_spec.
    assert (Hhalf : (Qabs (2 * ((2 * k + 1) # 4) - inject_Z n) == 1 # 2)%Q).
    { destruct Hn as [[-> _]|[-> _]].
      - rewrite Qabs_pos.
        + unfold Qeq, Qmult, Qminus, Qplus, Qopp, inject_Z.
          cbn [Qnum Qden]. lia.
        + unfold Qle, Qmult, Qminus, Qplus, Qopp, inject_Z.
          cbn [Qnum Qden]. lia.
      - rewrite Qabs_neg.
        + unfold Qeq, Qmult, Qminus, Qplus, Qopp, inject_Z.
          cbn [Qnum Qden]. lia.
        + unfold Qle, Qmult, Qminus, Qplus, Qopp, inject_Z.
          cbn [Qnum Qden]. lia. }
    rewrite Hhalf.
    unfold Qle, Qabs, Qmult, Qplus, inject_Z, atol, rtol.
    cbn [Qnum Qden]. lia. }
  destruct (np_isclose _ _) eqn:E.
  - split; [discriminate|]. intros Hk.
    assert (50000 <= Z.abs n)%Z by now apply Hclose.
    destruct Hn as [[-> _]|[-> _]]; lia.
  - split; [|reflexivity]. intros _.
    assert (Hlt : ~ (50000 <= Z.abs n)%Z)
      by (intros Hge; apply Hclose in Hge; discriminate).
    destruct Hn as [[-> He]|[-> He]].
    + assert (k <> 49999)%Z by (intros ->; discriminate He). lia.
    + assert (k <> -50000)%Z by (intros ->; discriminate He). lia.
Qed.

Local Open Scope nat_scope.

Lemma generator_sequence_generators (n_a n_b n_c : Z) :
  Forall generator_on_q0
    (phase_gates n_c ++ conjugated_phase_gates n_b ++ phase_gates n_a).
Proof.
  unfold phase_gates, conjugated_phase_gates, generator_on_q0, on_q0.
  apply Forall_app. split; [|apply Forall_app; split].
  - apply Forall_replicate. split; [now right|reflexivity].
  - apply Forall_concat, Forall_replicate.
    repeat apply Forall_cons_2; try apply Forall_nil_2;
      (split; [(now left) || (now right)|reflexivity]).
  - apply Forall_replicate. split; [now right|reflexivity].
Qed.

Lemma generator_sequence_length (n_a n_b n_c : Z) :
  length (phase_gates n_c ++ conjugated_phase_gates n_b ++ phase_gates n_a) =
  Z.to_nat n_c + 3 * Z.to_nat n_b + Z.to_nat n_a.
Proof.
  unfold phase_gates, conjugated_phase_gates.
  rewrite !length_app, !length_replicate.
  assert (Hc : forall k, length (concat (replicate k
             [on_q0 OpType.H; on_q0 OpType.S; on_q0 OpType.H])) = 3 * k).
  { induction k as [|k IH]; cbn [replicate concat]; [reflexivity|].
    rewrite length_app, IH. cbn. lia. }
  rewrite Hc. lia.
Qed.

Lemma generators_measure_nothing (cmds : list Command) :
  Forall generator_on_q0 cmds -> measured_bits cmds = [].
Proof.
  induction 1 as [|cmd cmds [[Hop|Hop] _] _ IH]; [reflexivity|..];
    rewrite measured_bits_cons, IH; unfold measured_bit;
    rewrite Hop; reflexivity.
Qed.

Lemma append_all_Forall (N : string -> Prop) (T : nat -> Prop)
      (c : StimCircuit) (inss : list (string * list nat)) :
  Forall (fun ins => N (fst ins) /\ Forall T (snd ins)) c ->
  Forall (fun ins => N (fst ins) /\ Forall T (snd ins)) inss ->
  Forall (fun ins => N (fst ins) /\ Forall T (snd ins)) (append_all c inss).
Proof.
  intros Hc Hinss. revert c Hc.
  induction Hinss as [|ins inss [Hname Htargets] _ IH]; intros c Hc;
    [exact Hc|].
  unfold append_all. cbn [foldl].
  fold (append_all (append_operation c (fst ins) (snd ins)) inss).
  apply IH. now apply append_operation_Forall.
Qed.

Lemma all_targets_singletons (inss : list (string * list nat)) :
  Forall (fun ins => length (snd ins) = 1) inss ->
  length (all_targets inss) = length inss.
Proof.
  induction 1 as [|ins inss Hins _ IH]; [reflexivity|].
  unfold all_targets in *. cbn [map concat length].
  rewrite length_app, IH, Hins. reflexivity.
Qed.

(** X16: a circuit [_tk1_to_cliff] returns is fit for the backend: it is
    on the one qubit [q[0]] with no bit, holds at most 35 gates, each a
    gate of the rebase's target set on [q[0]], passes the required
    predicates, and translates, with an empty ledger, to a Stim circuit
    whose instructions are all [H] or [S] with every target 0.  Stim
    fuses adjacent gates of one name into one instruction, so the Stim
    circuit has at most as many instructions as the circuit has gates,
    and exactly as many targets. *)
Theorem tk1_to_cliff_fits_backend (a b c : Q) (circ : Circuit) :
  _tk1_to_cliff a b c = Ok circ ->
  qubits circ = [q_ 0] /\ bits circ = [] /\
  Forall (fun cmd => op cmd ∈ rebase_gate_set /\ args cmd = [q_ 0])
         (get_commands circ) /\
  length (get_commands circ) <= 35 /\
  valid_circuit circ = true /\
  exists s : StimCircuit,
    translate circ = Ok (s, []) /\
    length (all_targets s) = length (get_commands circ) /\
    length s <= length (get_commands circ) /\
    Forall (fun ins => (fst ins = "H"%string \/ fst ins = "S"%string) /\
                       Forall (fun t => t = 0) (snd ins)) s.
Proof.
  intros Hrun.
  assert (Hres : exists n_a n_b n_c,
    _int_double a = Ok n_a /\ _int_double b = Ok n_b /\
    _int_double c = Ok n_c).
  { unfold _tk1_to_cliff in Hrun.
    destruct (_int_double a) as [n_a|]; [|discriminate].
    destruct (_int_double b) as [n_b|]; [|discriminate].
    destruct (_int_double c) as [n_c|]; [|discriminate].
    now exists n_a, n_b, n_c. }
  destruct Hres as (n_a & n_b & n_c & Ea & Eb & Ec).
  rewrite (tk1_to_cliff_accepts a b c n_a n_b n_c Ea Eb Ec) in Hrun.
  injection Hrun as <-. cbn [qubits bits get_commands].
  pose proof (generator_sequence_generators n_a n_b n_c) as Hgen.
  pose proof (generator_sequence_length n_a n_b n_c) as Hlen.
  apply int_double_inv in Ea as [_ ->], Eb as [_ ->], Ec as [_ ->].
  set (cmds := phase_gates _ ++ conjugated_phase_gates _ ++ phase_gates _)
    in *.
  split; [reflexivity|]. split; [reflexivity|]. split.
  { eapply Forall_impl; [exact Hgen|].
    intros cmd [[Hop|Hop] Hargs]; rewrite Hop; split; auto; compute_done. }
  split.
  { rewrite Hlen.
    pose proof (Z.mod_pos_bound (np_round (2 * a)) 8).
    pose proof (Z.mod_pos_bound (np_round (2 * b)) 8).
    pose proof (Z.mod_pos_bound (np_round (2 * c)) 8). lia. }
  split.
  { unfold valid_circuit, required_predicates.
    cbn [forallb verify qubits bits get_commands app].
    rewrite !andb_true_r. apply andb_true_intro. split; [reflexivity|].
    apply andb_true_intro. split; apply forallb_forall;
      intros cmd Hcmd; apply list_elem_of_In in Hcmd;
      rewrite Forall_forall in Hgen;
      destruct (Hgen cmd Hcmd) as [[Hop|Hop] _]; rewrite Hop; reflexivity. }
  assert (Hwf : Forall (well_formed [q_ 0]) cmds).
  { eapply Forall_impl; [exact Hgen|].
    intros cmd [[Hop|Hop] Hargs]; unfold well_formed;
      rewrite Hop, Hargs;
      (rewrite decide_False by discriminate);
      (split; [compute_done|repeat constructor; compute_done]). }
  pose proof (generators_measure_nothing cmds Hgen) as Hnone.
  destruct (for_each_well_formed [q_ 0] cmds [] [] Hwf) as (s & Hs).
  { rewrite Hnone. constructor. }
  rewrite Hnone in Hs. cbn [app] in Hs.
  exists s. unfold translate. cbn [qubits get_commands].
  split; [exact Hs|].
  apply for_each_lowers in Hs as (inss & -> & Hinss).
  assert (Hshape : Forall (fun ins =>
    (fst ins = "H"%string \/ fst ins = "S"%string) /\ snd ins = [0]) inss).
  { apply Forall_lookup. intros i ins Hins.
    destruct (Forall2_lookup_r _ _ _ _ _ Hinss Hins)
      as (cmd & Hcmd & Hname & Htargets).
    apply list_elem_of_lookup_2 in Hcmd.
    rewrite Forall_forall in Hgen.
    destruct (Hgen cmd Hcmd) as [Hop Hargs].
    unfold qubit_operands in Htargets. rewrite Hargs in Htargets.
    assert (Hnm : op cmd ≠ OpType.Measure)
      by (destruct Hop as [-> | ->]; discriminate).
    rewrite decide_False in Htargets by exact Hnm.
    split.
    - assert (HH : dict_get _gate OpType.H = Ok "H"%string) by reflexivity.
      assert (HS : dict_get _gate OpType.S = Ok "S"%string) by reflexivity.
      destruct Hop as [Hop|Hop]; rewrite Hop in Hname; [left|right];
        congruence.
    - inversion Htargets as [|? t ? ts [Ht _] Hrest]; subst.
      inversion Hrest; subst.
      destruct t as [|t]; [reflexivity|discriminate Ht]. }
  pose proof (Forall2_length _ _ _ Hinss) as Hcount.
  split.
  { rewrite append_all_targets. cbn [all_targets map concat app].
    fold (all_targets inss). rewrite all_targets_singletons; [lia|].
    eapply Forall_impl; [exact Hshape|]. intros ins [_ ->]. reflexivity. }
  split.
  { pose proof (append_all_length [] inss) as Hle. cbn [length] in Hle.
    lia. }
  apply (append_all_Forall
           (fun name => name = "H"%string \/ name = "S"%string)
           (fun t => t = 0)); [constructor|].
  eapply Forall_impl; [exact Hshape|].
  intros ins [Hname ->]. split; [exact Hname|]. now repeat constructor.
Qed.

Lemma gate_names_distinct_witness : OpType.SX = OpType.SX.
Proof.
  destruct gate_names_distinct as (_ & _ & Hinj).
  apply (Hinj OpType.SX OpType.SX "SQRT_X"%string); reflexivity.
Defined.

(** The T gate's angle is refused; [25000.25] is beyond the range. *)
Lemma quarter_odd_angles_witness :
  _int_double (1 # 4) = Raise NonCliffordAngle /\
  _int_double (100001 # 4) <> Raise NonCliffordAngle.
Proof.
  split.
  - apply (quarter_odd_angles 0). lia.
  - intros Hraise. apply (quarter_odd_angles 50000) in Hraise. lia.
Defined.

Lemma tk1_to_cliff_fits_backend_witness :
  exists circ : Circuit,
    _tk1_to_cliff (1 # 2) 1 (3 # 2) = Ok circ /\
    valid_circuit circ = true /\
    length (get_commands circ) <= 35 /\
    exists s : StimCircuit, translate circ = Ok (s, []).
Proof.
  destruct (_tk1_to_cliff (1 # 2) 1 (3 # 2)) as [circ|e] eqn:Erun;
    [|vm_compute in Erun; discriminate Erun].
  exists circ. split; [reflexivity|].
  destruct (tk1_to_cliff_fits_backend _ _ _ _ Erun)
    as (_ & _ & _ & Hlen & Hvalid & s & Hs & _).
  split; [exact Hvalid|]. split; [exact Hlen|]. now exists s.
Defined.
End RebaseFacts.
